(** * mx-bridge-eth-go: the step-based state machine engine, the bridge steps,
    the batch validator, the transfer batch and the Ethereum client.

  Shallow embedding of the Go sources.  Go values keep their shape:
  a map is a [gmap], a nil-able interface or pointer is an [option],
  a [(value, error)] pair is a [result], a panic is an explicit outcome. *)

From Stdlib Require Import ZArith Strings.Byte.
From stdpp Require Import gmap strings list fin_maps.

Local Open Scope Z_scope.

(** ** Go basics shared by the packages *)

(** A Go [(T, error)] return where exactly one side is meaningful. *)
Inductive result (E A : Type) : Type :=
| Ok (a : A)
| Err (e : E).
Arguments Ok {E A} a.
Arguments Err {E A} e.

(** What a Go call does: it returns a value or it panics. *)
Inductive outcome (A : Type) : Type :=
| Returned (a : A)
| Panicked.
Arguments Returned {A} a.
Arguments Panicked {A}.

(** [core.StepIdentifier] is a defined string type. *)
Abbreviation StepIdentifier := string (only parsing).

(** [context.Context], as far as the engine sees it: whether [Done] is closed. *)
Record context : Type := { done : bool }.

(** [context.WithCancel(context.Background())]: a fresh context that is not
  done and its cancel function. A cancel function closes [Done]; calling it
  again does nothing. *)
Definition CancelFunc : Type := context -> context.
Definition WithCancel : context * CancelFunc :=
  ({| done := false |}, fun _ => {| done := true |}).

(** Bytes can be compared and counted, so that byte strings can key a map. *)
#[global] Instance byte_eq_decision : EqDecision byte := Byte.byte_eq_dec.
#[global] Instance byte_countable : Countable byte :=
  inj_countable Byte.to_N Byte.of_N Byte.of_to_N.

(** A Go [error] value that comes from a collaborator: its message. *)
Definition goError : Type := string.

(** ** package state: the state machine engine *)
Module state.

Inductive level := LogTrace | LogDebug | LogInfo | LogError.

(** One line written through [logger.Logger]: level, message, key/value args. *)
Record logLine : Type := { lvl : level; msg : string; kv : list (string * string) }.

(** The sentinel errors of the package; [ErrNilStep] and [ErrStepNotFound]
  are wrapped with the identifier by [fmt.Errorf]. *)
Inductive error :=
| ErrNilStepsMap
| ErrNilStep (identifier : StepIdentifier)
| ErrNilLogger
| ErrStepNotFound (identifier : StepIdentifier).

Section Engine.
(** [W] is everything the steps act upon through their executor;
    [Logger] is the logger handle. *)
Context {W Logger : Type}.

(** [relay.Step]. *)
Record Step : Type := {
  Identifier : StepIdentifier;
  Execute : context -> W -> StepIdentifier * W
}.

(** [relay.MachineStates] is [map[StepIdentifier]Step]; a nil interface
    value is [None]. *)
Abbreviation MachineStates := (gmap StepIdentifier (option Step)) (only parsing).

Record ArgsStateMachine : Type := {
  StateMachineName : string;
  Steps : option MachineStates;      (* [None] is the nil map *)
  StartStateIdentifier : StepIdentifier;
  DurationBetweenSteps : Z;
  Log : option Logger
}.

Record stateMachine : Type := {
  stateMachineName : string;
  steps : option MachineStates;
  currentStep : option Step;
  durationBetweenSteps : Z;
  log : option Logger;
  cancel : option CancelFunc;
  loopStatus : bool
}.

(** The order in which [range] visits a map is not specified by Go;
    [range] is any enumeration of the entries. *)
Variable range : MachineStates -> list (StepIdentifier * option Step).

Fixpoint checkSteps (l : list (StepIdentifier * option Step)) : option error :=
  match l with
  | [] => None
  | (identifier, step) :: l' =>
      match step with
      | None => Some (ErrNilStep identifier)
      | Some _ => checkSteps l'
      end
  end.

Definition checkArgs (args : ArgsStateMachine) : option error :=
  match Steps args with
  | None => Some ErrNilStepsMap
  | Some m =>
      match checkSteps (range m) with
      | Some e => Some e
      | None =>
          match Log args with
          | None => Some ErrNilLogger
          | Some _ => None
          end
      end
  end.

(** Indexing a nil map finds nothing. *)
Definition getNextStep (sm : stateMachine) (identifier : StepIdentifier)
  : result error (option Step) :=
  match steps sm ≫= (.!! identifier) with
  | None => Err (ErrStepNotFound identifier)
  | Some nextStep => Ok nextStep
  end.

(** The goroutine launched by the constructor. *)
Inductive goroutine := GoExecuteLoop.

(** The running engine: the machine, the context shared by [Close] and the
    loop, the state the steps act upon, the log written so far, and where
    the loop goroutine is. *)
Inductive loopState :=
| Launched             (* [go sm.executeLoop(ctx)] has not run yet *)
| Running              (* blocked in [select] *)
| Closed               (* returned through [ctx.Done()] *)
| Stopped (e : error)  (* returned after [executeStep] failed *)
| Crashed.             (* nil dereference inside the loop *)

Record system : Type := {
  sm : stateMachine;
  ctx : context;
  world : W;
  logs : list logLine;
  loop : loopState
}.

Definition withCurrentStep (m : stateMachine) (s : option Step) : stateMachine :=
  {| stateMachineName := stateMachineName m; steps := steps m;
     currentStep := s; durationBetweenSteps := durationBetweenSteps m;
     log := log m; cancel := cancel m; loopStatus := loopStatus m |}.

Definition withLoopStatus (m : stateMachine) (b : bool) : stateMachine :=
  {| stateMachineName := stateMachineName m; steps := steps m;
     currentStep := currentStep m; durationBetweenSteps := durationBetweenSteps m;
     log := log m; cancel := cancel m; loopStatus := b |}.

(** [NewStateMachine]: the handle or the error, and the goroutines it
    launched. The loop sets its flag as its first action. *)
Definition NewStateMachine (args : ArgsStateMachine) (w : W)
  : result error system * list goroutine :=
  match checkArgs args with
  | Some err => (Err err, [])
  | None =>
      let sm0 := {| stateMachineName := StateMachineName args;
                    steps := Steps args;
                    currentStep := None;
                    durationBetweenSteps := DurationBetweenSteps args;
                    log := Log args;
                    cancel := None;
                    loopStatus := false |} in
      match getNextStep sm0 (StartStateIdentifier args) with
      | Err err => (Err err, [])
      | Ok s =>
          let '(c, cancelFn) := WithCancel in
          let sm1 := {| stateMachineName := StateMachineName args;
                        steps := Steps args;
                        currentStep := s;
                        durationBetweenSteps := DurationBetweenSteps args;
                        log := Log args;
                        cancel := Some cancelFn;
                        loopStatus := true |} in
          (Ok {| sm := sm1; ctx := c; world := w; logs := []; loop := Running |},
           [GoExecuteLoop])
      end
  end.

Definition line (l : level) (m : string) (args : list (string * string)) : logLine :=
  {| lvl := l; msg := m; kv := args |}.

(** [err.Error()]; the texts of the sentinels are those of section 8 of the
  specification, their declarations being outside the sources at hand. *)
Definition errorText (e : error) : string :=
  match e with
  | ErrNilStepsMap => "nil steps"
  | ErrNilStep i => "nil step for identifier " +:+ i
  | ErrNilLogger => "nil logger"
  | ErrStepNotFound i => "step not found for identifier '" +:+ i +:+ "'"
  end.

(** [executeStep]: [None] is the panic of a nil logger or nil current step. *)
Definition executeStep (sys : system) : option (system * option error) :=
  match log (sm sys), currentStep (sm sys) with
  | Some _, Some cur =>
      let l := line LogTrace (stateMachineName (sm sys) +:+ ": executing step")
                    [("step", Identifier cur)] in
      let '(nextStepIdentifier, w') := Execute cur (ctx sys) (world sys) in
      let '(next, err) :=
        match getNextStep (sm sys) nextStepIdentifier with
        | Ok s => (s, None)
        | Err e => (None, Some e)
        end in
      Some ({| sm := withCurrentStep (sm sys) next; ctx := ctx sys; world := w';
               logs := logs sys ++ [l]; loop := loop sys |}, err)
  | _, _ => None
  end.

(** [Close]: panics on a nil [cancel], otherwise cancels and returns nil. *)
Definition Close (sys : system) : outcome (option error) * system :=
  match cancel (sm sys) with
  | None => (Panicked, sys)
  | Some f =>
      (Returned None,
       {| sm := sm sys; ctx := f (ctx sys); world := world sys;
          logs := logs sys; loop := loop sys |})
  end.

(** What can happen to a running engine: some goroutine calls [Close], or
  the [select] of the loop takes one of its two cases. *)
Inductive event :=
| EvClose
| EvDone      (* [case <-ctx.Done()] *)
| EvTimer.    (* [case <-time.After(sm.durationBetweenSteps)] *)

(** [sm.loopStatus.Set()], the first statement of the loop. *)
Definition enter (sys : system) : system :=
  {| sm := withLoopStatus (sm sys) true; ctx := ctx sys; world := world sys;
     logs := logs sys; loop := Running |}.

(** Returning from the loop, after writing [extra]; the deferred
  [sm.loopStatus.Unset()] runs. *)
Definition leave (sys : system) (st : loopState) (extra : list logLine) : system :=
  {| sm := withLoopStatus (sm sys) false; ctx := ctx sys; world := world sys;
     logs := logs sys ++ extra; loop := st |}.

(** The [select] of a loop that is inside its [for]. The [ctx.Done()] case
  is enabled only once the context is cancelled. *)
Definition selectCase (ev : event) (sys : system) : system :=
  match ev with
  | EvClose => snd (Close sys)
  | EvDone =>
      if done (ctx sys) then
        leave sys Closed
          [line LogDebug (stateMachineName (sm sys)
                          +:+ ": state machine main execute loop is closing...") []]
      else sys
  | EvTimer =>
      match executeStep sys with
      | None => leave sys Crashed []
      | Some (sys', None) => sys'
      | Some (sys', Some err) =>
          leave sys' (Stopped err)
            [line LogError (stateMachineName (sm sys) +:+ ": state machine error")
               [("status", "state machine stopped"); ("error", errorText err)]]
      end
  end.

(** One event of the engine. A loop that was only launched first sets its
  flag; a loop that has returned takes no further case, and only [Close]
  still acts. *)
Definition loopIteration (ev : event) (sys : system) : system :=
  match ev, loop sys with
  | EvClose, _ => snd (Close sys)
  | EvDone, Launched => if done (ctx sys) then selectCase ev (enter sys) else sys
  | EvTimer, Launched => selectCase ev (enter sys)
  | _, Running => selectCase ev sys
  | _, _ => sys
  end.

(** [executeLoop] along a sequence of events. *)
Definition executeLoop (evs : list event) (sys : system) : system :=
  foldl (fun s ev => loopIteration ev s) sys evs.

(** [Close] called [n] times in succession: what each call returned. *)
Fixpoint closeTimes (n : nat) (sys : system) : list (outcome (option error)) * system :=
  match n with
  | O => ([], sys)
  | S n' =>
      let '(r, sys') := Close sys in
      let '(rs, sys'') := closeTimes n' sys' in
      (r :: rs, sys'')
  end.

(** What the constructor establishes and the loop keeps: the logger and
  every step of the graph are non-nil, [cancel] is the cancel function of
  the context, and a loop that has not returned has a current step. *)
Definition wellFormed (sys : system) : Prop :=
  is_Some (log (sm sys)) ∧ cancel (sm sys) = Some (snd WithCancel) ∧
  (∃ m, steps (sm sys) = Some m ∧ ∀ i, m !! i ≠ Some None) ∧
  (loop sys = Launched ∨ loop sys = Running → is_Some (currentStep (sm sys))).

End Engine.

Arguments Step : clear implicits.
Arguments ArgsStateMachine : clear implicits.
Arguments stateMachine : clear implicits.
Arguments system : clear implicits.

(** A two-step graph over a counter: [A] counts and goes to [B], [B] counts
  and names [C], which is no key of the graph. *)
Definition stepA : Step nat :=
  {| Identifier := "A"; Execute := fun _ n => ("B", S n) |}.
Definition stepB : Step nat :=
  {| Identifier := "B"; Execute := fun _ n => ("C", S n) |}.
Definition demoSteps : gmap string (option (Step nat)) :=
  <["A" := Some stepA]> (<["B" := Some stepB]> ∅).
Definition demoArgs : ArgsStateMachine nat unit :=
  {| StateMachineName := "demo"; Steps := Some demoSteps;
     StartStateIdentifier := "A"; DurationBetweenSteps := 1; Log := Some tt |}.

(** The same arguments with one of them made invalid. *)
Definition nilMapArgs : ArgsStateMachine nat unit :=
  {| StateMachineName := "demo"; Steps := None;
     StartStateIdentifier := "A"; DurationBetweenSteps := 1; Log := Some tt |}.
Definition nilStepArgs : ArgsStateMachine nat unit :=
  {| StateMachineName := "demo"; Steps := Some (<["X" := None]> demoSteps);
     StartStateIdentifier := "A"; DurationBetweenSteps := 1; Log := Some tt |}.
Definition nilLoggerArgs : ArgsStateMachine nat unit :=
  {| StateMachineName := "demo"; Steps := Some demoSteps;
     StartStateIdentifier := "A"; DurationBetweenSteps := 1; Log := None |}.
Definition unknownStartArgs : ArgsStateMachine nat unit :=
  {| StateMachineName := "demo"; Steps := Some demoSteps;
     StartStateIdentifier := "Z"; DurationBetweenSteps := 1; Log := Some tt |}.

(** Events can be compared, to count the timer ticks of a run. *)
#[global] Instance event_eq_dec : EqDecision event.
Proof. solve_decision. Defined.

(** A graph that is closed: [A] counts and goes to [B], [stepBack] counts
  and goes back to [A]. *)
Definition stepBack : Step nat :=
  {| Identifier := "B"; Execute := fun _ n => ("A", S n) |}.
Definition cycleSteps : gmap string (option (Step nat)) :=
  <["A" := Some stepA]> (<["B" := Some stepBack]> ∅).
Definition cycleArgs : ArgsStateMachine nat unit :=
  {| StateMachineName := "cycle"; Steps := Some cycleSteps;
     StartStateIdentifier := "A"; DurationBetweenSteps := 1; Log := Some tt |}.

End state.

(** ** package clients: the transfer batch *)
Module clients.

(** Go pointers and backing arrays live in a heap, one address space per Go
  type (the type system keeps them apart). *)
Abbreviation loc := positive (only parsing).

(** A slice header: backing array, offset of the first element in it,
  length and capacity. A nil slice is [None]. *)
Record slice : Type := { arr : loc; off : nat; len : nat; cap : nat }.

Record DepositTransfer : Type := {
  Nonce : Z;
  ToBytes : option slice;
  DisplayableTo : string;
  FromBytes : option slice;
  DisplayableFrom : string;
  TokenBytes : option slice;
  DisplayableToken : string;
  Amount : option loc          (* [*big.Int] *)
}.

Record TransferBatch : Type := {
  ID : Z;
  Deposits : option slice      (* [[]*DepositTransfer] *)
}.

Record heap : Type := {
  byteArrays : gmap loc (list byte);
  bigInts : gmap loc Z;
  deposits : gmap loc DepositTransfer;
  pointerArrays : gmap loc (list (option loc));
  batches : gmap loc TransferBatch
}.

Definition withByteArrays (h : heap) (m : gmap loc (list byte)) : heap :=
  {| byteArrays := m; bigInts := bigInts h; deposits := deposits h;
     pointerArrays := pointerArrays h; batches := batches h |}.
Definition withBigInts (h : heap) (m : gmap loc Z) : heap :=
  {| byteArrays := byteArrays h; bigInts := m; deposits := deposits h;
     pointerArrays := pointerArrays h; batches := batches h |}.
Definition withDeposits (h : heap) (m : gmap loc DepositTransfer) : heap :=
  {| byteArrays := byteArrays h; bigInts := bigInts h; deposits := m;
     pointerArrays := pointerArrays h; batches := batches h |}.
Definition withPointerArrays (h : heap) (m : gmap loc (list (option loc))) : heap :=
  {| byteArrays := byteArrays h; bigInts := bigInts h; deposits := deposits h;
     pointerArrays := m; batches := batches h |}.
Definition withBatches (h : heap) (m : gmap loc TransferBatch) : heap :=
  {| byteArrays := byteArrays h; bigInts := bigInts h; deposits := deposits h;
     pointerArrays := pointerArrays h; batches := m |}.

(** [len(s)]; the length of a nil slice is 0. *)
Definition sliceLen (s : option slice) : nat := from_option len 0%nat s.

(** [make([]byte, n)]: a fresh array of [n] zero bytes. *)
Definition makeBytes (n : nat) (h : heap) : slice * heap :=
  let l := fresh (dom (byteArrays h)) in
  ({| arr := l; off := 0; len := n; cap := n |},
   withByteArrays h (<[l := replicate n x00]> (byteArrays h))).

(** [make([]*DepositTransfer, 0, n)]: a fresh array of [n] nil pointers, of
  which the slice shows none. *)
Definition makePointers (n : nat) (h : heap) : slice * heap :=
  let l := fresh (dom (pointerArrays h)) in
  ({| arr := l; off := 0; len := 0; cap := n |},
   withPointerArrays h (<[l := replicate n None]> (pointerArrays h))).

(** [big.NewInt(z)]. *)
Definition NewInt (z : Z) (h : heap) : loc * heap :=
  let l := fresh (dom (bigInts h)) in
  (l, withBigInts h (<[l := z]> (bigInts h))).

(** [&DepositTransfer{...}] and [&TransferBatch{...}]. *)
Definition newDeposit (d : DepositTransfer) (h : heap) : loc * heap :=
  let l := fresh (dom (deposits h)) in
  (l, withDeposits h (<[l := d]> (deposits h))).
Definition newBatch (b : TransferBatch) (h : heap) : loc * heap :=
  let l := fresh (dom (batches h)) in
  (l, withBatches h (<[l := b]> (batches h))).

(** [copy(dst, src)]: the first [min(len(dst), len(src))] bytes of [src]
  overwrite those of [dst]; [None] is an access outside the heap. *)
Definition copyBytes (dst src : option slice) (h : heap) : option heap :=
  match dst, src with
  | Some d, Some s =>
      let n := (len d `min` len s)%nat in
      sa ← byteArrays h !! arr s;
      da ← byteArrays h !! arr d;
      if ((off s + n <=? length sa) && (off d + n <=? length da))%nat then
        Some (withByteArrays h
                (<[arr d := take (off d) da ++ take n (drop (off s) sa)
                            ++ drop (off d + n) da]> (byteArrays h)))
      else None
  | _, _ => Some h
  end.

(** [z.Set(x)] on [*big.Int]: a nil receiver or argument panics. *)
Definition bigSet (z x : option loc) (h : heap) : option heap :=
  lz ← z; lx ← x;
  _ ← bigInts h !! lz;
  v ← bigInts h !! lx;
  Some (withBigInts h (<[lz := v]> (bigInts h))).

(** [DepositTransfer.Clone]; [None] is the panic of a nil receiver. *)
Definition DepositTransfer_Clone (dt : option loc) (h : heap) : option (loc * heap) :=
  l ← dt;
  d ← deposits h !! l;
  let '(to, h1) := makeBytes (sliceLen (ToBytes d)) h in
  let '(from, h2) := makeBytes (sliceLen (FromBytes d)) h1 in
  let '(token, h3) := makeBytes (sliceLen (TokenBytes d)) h2 in
  let '(amount, h4) := NewInt 0 h3 in
  let '(cloned, h5) :=
    newDeposit {| Nonce := Nonce d;
                  ToBytes := Some to;
                  DisplayableTo := DisplayableTo d;
                  FromBytes := Some from;
                  DisplayableFrom := DisplayableFrom d;
                  TokenBytes := Some token;
                  DisplayableToken := DisplayableToken d;
                  Amount := Some amount |} h4 in
  h6 ← copyBytes (Some to) (ToBytes d) h5;
  h7 ← copyBytes (Some from) (FromBytes d) h6;
  h8 ← copyBytes (Some token) (TokenBytes d) h7;
  h9 ← match Amount d with
       | Some a => bigSet (Some amount) (Some a) h8
       | None => Some h8
       end;
  Some (cloned, h9).

(** [s[i]] on a slice of pointers. *)
Definition indexPointers (s : option slice) (i : nat) (h : heap) : option (option loc) :=
  hdr ← s;
  a ← pointerArrays h !! arr hdr;
  if (i <? len hdr)%nat then a !! (off hdr + i)%nat else None.

(** [append(s, x)] on a slice of pointers: in place while the capacity
  allows, into a fresh and larger array otherwise. *)
Definition appendPointer (s : option slice) (x : option loc) (h : heap)
  : option (slice * heap) :=
  match s with
  | Some hdr =>
      a ← pointerArrays h !! arr hdr;
      if (len hdr <? cap hdr)%nat then
        if (off hdr + len hdr <? length a)%nat then
          Some ({| arr := arr hdr; off := off hdr; len := S (len hdr); cap := cap hdr |},
                withPointerArrays h
                  (<[arr hdr := <[(off hdr + len hdr)%nat := x]> a]> (pointerArrays h)))
        else None
      else
        let l := fresh (dom (pointerArrays h)) in
        let old := take (len hdr) (drop (off hdr) a) in
        Some ({| arr := l; off := 0; len := S (len hdr); cap := S (2 * len hdr) |},
              withPointerArrays h
                (<[l := old ++ x :: replicate (len hdr) None]> (pointerArrays h)))
  | None =>
      let l := fresh (dom (pointerArrays h)) in
      Some ({| arr := l; off := 0; len := 1; cap := 1 |},
            withPointerArrays h (<[l := [x]]> (pointerArrays h)))
  end.

(** The [for _, dt := range tb.Deposits] of [TransferBatch.Clone], from
  index [i] for [n] more elements:
  [cloned.Deposits = append(cloned.Deposits, dt.Clone())]. *)
Fixpoint cloneDeposits (src : option slice) (i n : nat) (cloned : loc) (h : heap)
  : option heap :=
  match n with
  | O => Some h
  | S n' =>
      dt ← indexPointers src i h;
      '(c, h1) ← DepositTransfer_Clone dt h;
      cb ← batches h1 !! cloned;
      '(s', h2) ← appendPointer (Deposits cb) (Some c) h1;
      cloneDeposits src (S i) n' cloned
        (withBatches h2 (<[cloned := {| ID := ID cb; Deposits := Some s' |}]> (batches h2)))
  end.

(** [TransferBatch.Clone]; [None] is the panic of a nil receiver or of a nil
  deposit in the batch. *)
Definition TransferBatch_Clone (tb : option loc) (h : heap) : option (loc * heap) :=
  l ← tb;
  b ← batches h !! l;
  let '(ds, h1) := makePointers (sliceLen (Deposits b)) h in
  let '(cloned, h2) := newBatch {| ID := ID b; Deposits := Some ds |} h1 in
  h3 ← cloneDeposits (Deposits b) 0 (sliceLen (Deposits b)) cloned h2;
  Some (cloned, h3).

(** Writes through references, as a holder of the batch can make them:
  [s[i] = x] on a byte slice and [a.SetInt64(z)] on an amount. *)
Definition setByte (s : option slice) (i : nat) (x : byte) (h : heap) : option heap :=
  hdr ← s;
  a ← byteArrays h !! arr hdr;
  if ((i <? len hdr) && (off hdr + i <? length a))%nat then
    Some (withByteArrays h (<[arr hdr := <[(off hdr + i)%nat := x]> a]> (byteArrays h)))
  else None.
Definition SetInt64 (a : option loc) (z : Z) (h : heap) : option heap :=
  l ← a;
  _ ← bigInts h !! l;
  Some (withBigInts h (<[l := z]> (bigInts h))).

(** *** What a batch holds, read through the heap *)

Record DepositValue : Type := {
  nonce : Z;
  toBytes : list byte;
  displayableTo : string;
  fromBytes : list byte;
  displayableFrom : string;
  tokenBytes : list byte;
  displayableToken : string;
  amount : option Z            (* [None]: the amount pointer is nil *)
}.

Record BatchValue : Type := { id : Z; depositValues : list DepositValue }.

Definition readBytes (h : heap) (s : option slice) : option (list byte) :=
  match s with
  | None => Some []
  | Some hdr =>
      a ← byteArrays h !! arr hdr;
      if (off hdr + len hdr <=? length a)%nat
      then Some (take (len hdr) (drop (off hdr) a)) else None
  end.

Definition readAmount (h : heap) (a : option loc) : option (option Z) :=
  match a with
  | None => Some None
  | Some l => z ← bigInts h !! l; Some (Some z)
  end.

Definition readPointers (h : heap) (s : option slice) : option (list (option loc)) :=
  match s with
  | None => Some []
  | Some hdr =>
      a ← pointerArrays h !! arr hdr;
      if (off hdr + len hdr <=? length a)%nat
      then Some (take (len hdr) (drop (off hdr) a)) else None
  end.

Definition depositValue (h : heap) (p : option loc) : option DepositValue :=
  l ← p;
  d ← deposits h !! l;
  to ← readBytes h (ToBytes d);
  from ← readBytes h (FromBytes d);
  token ← readBytes h (TokenBytes d);
  a ← readAmount h (Amount d);
  Some {| nonce := Nonce d; toBytes := to; displayableTo := DisplayableTo d;
          fromBytes := from; displayableFrom := DisplayableFrom d;
          tokenBytes := token; displayableToken := DisplayableToken d;
          amount := a |}.

Definition batchValue (h : heap) (p : option loc) : option BatchValue :=
  l ← p;
  b ← batches h !! l;
  ps ← readPointers h (Deposits b);
  ds ← mapM (depositValue h) ps;
  Some {| id := ID b; depositValues := ds |}.

(** The deposit structs of a batch. *)
Definition batchDeposits (h : heap) (p : option loc) : option (list DepositTransfer) :=
  l ← p;
  b ← batches h !! l;
  ps ← readPointers h (Deposits b);
  mapM (λ q, q ≫= (deposits h !!.)) ps.

(** What [Clone] makes of a deposit: a nil amount becomes a fresh zero. *)
Definition clonedDeposit (v : DepositValue) : DepositValue :=
  {| nonce := nonce v; toBytes := toBytes v; displayableTo := displayableTo v;
     fromBytes := fromBytes v; displayableFrom := displayableFrom v;
     tokenBytes := tokenBytes v; displayableToken := displayableToken v;
     amount := Some (default 0 (amount v)) |}.
Definition clonedBatch (v : BatchValue) : BatchValue :=
  {| id := id v; depositValues := clonedDeposit <$> depositValues v |}.

(** No part of [h'] that was in [h] has changed. *)
Definition extends (h h' : heap) : Prop :=
  byteArrays h ⊆ byteArrays h' ∧ bigInts h ⊆ bigInts h' ∧
  deposits h ⊆ deposits h' ∧ pointerArrays h ⊆ pointerArrays h' ∧
  batches h ⊆ batches h'.

(** Every reference of the deposit [d] points outside [h]. *)
Definition freshRefs (h : heap) (d : DepositTransfer) : Prop :=
  (∃ t, ToBytes d = Some t ∧ byteArrays h !! arr t = None) ∧
  (∃ f, FromBytes d = Some f ∧ byteArrays h !! arr f = None) ∧
  (∃ k, TokenBytes d = Some k ∧ byteArrays h !! arr k = None) ∧
  (∃ a, Amount d = Some a ∧ bigInts h !! a = None).

(** A heap with the batch [{ID: 7, Deposits: [d]}] at address 1, where [d]
  has nonce 1, two-byte addresses and the amount pointer [a]. *)
Definition demoHeap (a : option loc) (ints : gmap loc Z) : heap :=
  {| byteArrays := <[1%positive := [x01; x02]]>
                     (<[2%positive := [x03; x04]]>
                        (<[3%positive := [x05; x06]]> ∅));
     bigInts := ints;
     deposits := <[1%positive :=
                    {| Nonce := 1;
                       ToBytes := Some {| arr := 1; off := 0; len := 2; cap := 2 |};
                       DisplayableTo := "to";
                       FromBytes := Some {| arr := 2; off := 0; len := 2; cap := 2 |};
                       DisplayableFrom := "from";
                       TokenBytes := Some {| arr := 3; off := 0; len := 2; cap := 2 |};
                       DisplayableToken := "token";
                       Amount := a |}]> ∅;
     pointerArrays := <[1%positive := [Some 1%positive]]> ∅;
     batches := <[1%positive :=
                    {| ID := 7;
                       Deposits := Some {| arr := 1; off := 0; len := 1; cap := 1 |} |}]> ∅ |}.
Definition heapWithAmount : heap := demoHeap (Some 1%positive) (<[1%positive := 100]> ∅).
Definition heapWithNilAmount : heap := demoHeap None ∅.

End clients.

(** ** package elrondToEth: steps of the Elrond to Ethereum half-bridge *)
Module elrondToEth.

(** An argument of a log line. *)
Inductive logArg := ArgNumber (n : Z) | ArgError (e : goError).

(** What a step does to its executor, in the order it does it. *)
Inductive call :=
| CallWasActionPerformedOnElrond
| CallGetStoredActionID
| CallMyTurnAsLeader
| CallPerformActionOnElrond
| CallGetStoredBatch
| CallSignTransferOnEthereum
| CallWaitForTransferConfirmation
| CallLog (l : state.level) (msg : string) (args : list (string * logArg)).

#[global] Instance level_eq_dec : EqDecision state.level.
Proof. solve_decision. Defined.
#[global] Instance logArg_eq_dec : EqDecision logArg.
Proof. solve_decision. Defined.
#[global] Instance call_eq_dec : EqDecision call.
Proof. solve_decision. Defined.

Section Steps.
(** [B] is the state behind the executor: the two chains, the stored batch
  and action id, the current leader. *)
Context {B : Type}.

(** The methods of [ethElrond.Executor] (and, for the wait, of
  [steps.Executor]) that these steps call. Each may change [B]. A wait
  that does not return is [None]. *)
Record Executor : Type := {
  WasActionPerformedOnElrond : context -> B -> result goError bool * B;
  GetStoredActionID : B -> Z * B;
  MyTurnAsLeader : B -> bool * B;
  PerformActionOnElrond : context -> B -> option goError * B;
  GetStoredBatch : B -> option clients.TransferBatch * B;
  SignTransferOnEthereum : B -> option goError * B;
  WaitForTransferConfirmation : context -> B -> option B
}.

(** The step identifiers, constants of the package declared outside the
  sources at hand. *)
Variables GettingPendingBatchFromElrond PerformingSetStatus
  SigningProposedTransferOnEthereum WaitingForQuorumOnTransfer
  PerformingTransfer WaitingTransferConfirmation : StepIdentifier.

(** A step runs on the executor state and the calls made so far. *)
Definition action (A : Type) : Type := B * list call -> A * (B * list call).
Definition ret {A} (a : A) : action A := fun st => (a, st).
Definition bind {A C} (m : action A) (k : A -> action C) : action C :=
  fun st => let '(a, st') := m st in k a st'.
Definition invoke {A} (c : call) (f : B -> A * B) : action A :=
  fun st => let '(a, b') := f (fst st) in (a, (b', snd st ++ [c])).
Definition logLine (l : state.level) (msg : string) (args : list (string * logArg))
  : action unit :=
  fun st => (tt, (fst st, snd st ++ [CallLog l msg args])).

Declare Scope action_scope.
Local Notation "x <- c ;; k" := (bind c (fun x => k))
  (at level 100, c at next level, k at level 200, right associativity) : action_scope.
Local Notation "c ;; k" := (bind c (fun _ => k))
  (at level 100, k at level 200, right associativity) : action_scope.
Local Open Scope action_scope.

Record performSetStatusStep : Type := { bridge : Executor }.

Definition performSetStatusStep_Identifier (step : performSetStatusStep) : StepIdentifier :=
  PerformingSetStatus.

Definition performSetStatusStep_Execute (step : performSetStatusStep) (ctx : context)
  : action StepIdentifier :=
  r <- invoke CallWasActionPerformedOnElrond
         (WasActionPerformedOnElrond (bridge step) ctx) ;;
  match r with
  | Err err =>
      actionID <- invoke CallGetStoredActionID (GetStoredActionID (bridge step)) ;;
      logLine state.LogError "error determining if the set status was proposed or not"
        [("action ID", ArgNumber actionID); ("error", ArgError err)] ;;
      ret GettingPendingBatchFromElrond
  | Ok wasPerformed =>
      if wasPerformed then
        actionID <- invoke CallGetStoredActionID (GetStoredActionID (bridge step)) ;;
        logLine state.LogInfo "action ID performed" [("action ID", ArgNumber actionID)] ;;
        ret GettingPendingBatchFromElrond
      else
        leader <- invoke CallMyTurnAsLeader (MyTurnAsLeader (bridge step)) ;;
        if negb leader then
          logLine state.LogDebug "not my turn as leader in this round" [] ;;
          ret (performSetStatusStep_Identifier step)
        else
          e <- invoke CallPerformActionOnElrond
                 (PerformActionOnElrond (bridge step) ctx) ;;
          match e with
          | Some err =>
              actionID <- invoke CallGetStoredActionID (GetStoredActionID (bridge step)) ;;
              logLine state.LogInfo "error performing action ID"
                [("action ID", ArgNumber actionID); ("error", ArgError err)] ;;
              ret GettingPendingBatchFromElrond
          | None => ret (performSetStatusStep_Identifier step)
          end
  end.

Record signProposedTransferStep : Type := { signBridge : Executor }.

Definition signProposedTransferStep_Identifier (step : signProposedTransferStep)
  : StepIdentifier := SigningProposedTransferOnEthereum.

Definition signProposedTransferStep_Execute (step : signProposedTransferStep)
    (ctx : context) : action StepIdentifier :=
  storedBatch <- invoke CallGetStoredBatch (GetStoredBatch (signBridge step)) ;;
  match storedBatch with
  | None =>
      logLine state.LogDebug "nil batch stored" [] ;;
      ret GettingPendingBatchFromElrond
  | Some batch =>
      e <- invoke CallSignTransferOnEthereum (SignTransferOnEthereum (signBridge step)) ;;
      match e with
      | Some err =>
          logLine state.LogError "error signing"
            [("batch ID", ArgNumber (clients.ID batch)); ("error", ArgError err)] ;;
          ret GettingPendingBatchFromElrond
      | None => ret WaitingForQuorumOnTransfer
      end
  end.

Record waitTransferConfirmationStep : Type := { waitBridge : Executor }.

Definition waitTransferConfirmationStep_Identifier (step : waitTransferConfirmationStep)
  : StepIdentifier := WaitingTransferConfirmation.

(** [None]: the executor's wait has not returned, and neither has the step. *)
Definition waitTransferConfirmationStep_Execute (step : waitTransferConfirmationStep)
    (ctx : context) (st : B * list call) : option (StepIdentifier * (B * list call)) :=
  match WaitForTransferConfirmation (waitBridge step) ctx (fst st) with
  | None => None
  | Some b' => Some (PerformingTransfer, (b', snd st ++ [CallWaitForTransferConfirmation]))
  end.

(** How often the step asked the executor to perform the action. *)
Definition performAttempts (calls : list call) : nat :=
  length (filter (λ c, c = CallPerformActionOnElrond) calls).

(** [performSetStatusStep] as a step of the engine. *)
Definition performSetStatusAsStep (step : performSetStatusStep)
  : state.Step (B * list call) :=
  {| state.Identifier := performSetStatusStep_Identifier step;
     state.Execute := performSetStatusStep_Execute step |}.

End Steps.

Arguments Executor : clear implicits.
Arguments performSetStatusStep : clear implicits.
Arguments signProposedTransferStep : clear implicits.
Arguments waitTransferConfirmationStep : clear implicits.

(** An executor over a small chain state, in the manner of the test stubs:
  what the queries answer is fixed, performing the action marks it
  performed. *)
Record chain : Type := {
  performed : result goError bool;
  leader : bool;
  performError : option goError;
  confirmed : bool;
  stored : option clients.TransferBatch;
  signError : option goError
}.
Definition chainExecutor : Executor chain :=
  {| WasActionPerformedOnElrond := fun _ b => (performed b, b);
     GetStoredActionID := fun b => (662528, b);
     MyTurnAsLeader := fun b => (leader b, b);
     PerformActionOnElrond := fun _ b =>
       match performError b with
       | Some e => (Some e, b)
       | None => (None, {| performed := Ok true; leader := leader b;
                           performError := None; confirmed := confirmed b;
                           stored := stored b; signError := signError b |})
       end;
     GetStoredBatch := fun b => (stored b, b);
     SignTransferOnEthereum := fun b => (signError b, b);
     WaitForTransferConfirmation := fun c b =>
       if confirmed b || done c then Some b else None |}.
Definition aChain (p : result goError bool) (l : bool) (e : option goError) : chain :=
  {| performed := p; leader := l; performError := e; confirmed := false;
     stored := None; signError := None |}.
Definition aChainWithBatch (e : option goError) : chain :=
  {| performed := Ok false; leader := false; performError := None; confirmed := false;
     stored := Some {| clients.ID := 7; clients.Deposits := None |}; signError := e |}.

(** A graph for the engine: the perform-set-status step on the chain
  executor, and a fetch-pending step that finds no batch. *)
Definition idleStep : state.Step (chain * list call) :=
  {| state.Identifier := "get pending";
     state.Execute := fun _ st => ("get pending", st) |}.
Definition bridgeSteps : gmap string (option (state.Step (chain * list call))) :=
  <["perform" := Some (performSetStatusAsStep "get pending" "perform"
                         {| bridge := chainExecutor |})]>
    (<["get pending" := Some idleStep]> ∅).
Definition bridgeArgs : state.ArgsStateMachine (chain * list call) unit :=
  {| state.StateMachineName := "ElrondToEth"; state.Steps := Some bridgeSteps;
     state.StartStateIdentifier := "perform"; state.DurationBetweenSteps := 1;
     state.Log := Some tt |}.

End elrondToEth.

(** ** package steps: the sign-proposed-set-status step *)
Module steps.

(** The executor calls the test of the step stubs. *)
Inductive call :=
| CallGetStoredBatch
| CallGetAndStoreActionIDForProposeSetStatusFromElrond
| CallWasActionSignedOnElrond
| CallSignActionOnElrond.

#[global] Instance call_eq_dec : EqDecision call.
Proof. solve_decision. Defined.

Section SignProposedSetStatus.
Context {B : Type}.

(** The part of the bridge executor stub that
  [createStubExecutorSignProposedSetStatus] fills in. *)
Record Executor : Type := {
  GetStoredBatch : B -> option clients.TransferBatch * B;
  GetAndStoreActionIDForProposeSetStatusFromElrond : context -> B -> result goError Z * B;
  WasActionSignedOnElrond : context -> B -> result goError bool * B;
  SignActionOnElrond : context -> B -> option goError * B
}.

(** [initialStep] and [elrondToEth.WaitingForQuorumOnSetStatus] of the
  test, and the reserved [v2.InvalidActionID]: constants declared outside
  the sources at hand. *)
Variables initialStep WaitingForQuorumOnSetStatus : StepIdentifier.
Variable InvalidActionID : Z.

Definition invoke {A} (c : call) (f : B -> A * B) (st : B * list call)
  : A * (B * list call) :=
  let '(a, b') := f (fst st) in (a, (b', snd st ++ [c])).

Record signProposedSetStatusStep : Type := { bridge : Executor }.

(** Modelled from the spec: [signProposedSetStatusStep.Execute], whose source
  file is not among the sources (only its test is). After section 4.3,
  item 3: re-fetch the stored batch, absent: the initial step; obtain the
  action id, lookup error or invalid id: the initial step; ask whether this
  relayer signed, error: the initial step; if not yet signed, sign, error:
  the initial step; freshly signed or signed already: waiting for quorum.
  As in the test, [Execute] returns the identifier and a nil error. *)
Definition signProposedSetStatusStep_Execute (step : signProposedSetStatusStep)
    (ctx : context) (st : B * list call)
  : (StepIdentifier * option goError) * (B * list call) :=
  let '(storedBatch, st1) := invoke CallGetStoredBatch (GetStoredBatch (bridge step)) st in
  match storedBatch with
  | None => ((initialStep, None), st1)
  | Some _ =>
      let '(r, st2) :=
        invoke CallGetAndStoreActionIDForProposeSetStatusFromElrond
          (GetAndStoreActionIDForProposeSetStatusFromElrond (bridge step) ctx) st1 in
      match r with
      | Err _ => ((initialStep, None), st2)
      | Ok actionID =>
          if (actionID =? InvalidActionID)%Z then ((initialStep, None), st2)
          else
            let '(s, st3) :=
              invoke CallWasActionSignedOnElrond
                (WasActionSignedOnElrond (bridge step) ctx) st2 in
            match s with
            | Err _ => ((initialStep, None), st3)
            | Ok true => ((WaitingForQuorumOnSetStatus, None), st3)
            | Ok false =>
                let '(e, st4) :=
                  invoke CallSignActionOnElrond
                    (SignActionOnElrond (bridge step) ctx) st3 in
                match e with
                | Some _ => ((initialStep, None), st4)
                | None => ((WaitingForQuorumOnSetStatus, None), st4)
                end
            end
      end
  end.

(** How often the step asked the executor to sign. *)
Definition signCalls (calls : list call) : nat :=
  length (filter (λ c, c = CallSignActionOnElrond) calls).

End SignProposedSetStatus.

Arguments Executor : clear implicits.
Arguments signProposedSetStatusStep : clear implicits.

(** The stub of the test: a stored batch, action id 662528, not yet signed,
  signing succeeds; each entry can be replaced. The state counts the
  signatures made. *)
Definition testBatch : clients.TransferBatch :=
  {| clients.ID := 112233; clients.Deposits := None |}.
Definition stub (batch : option clients.TransferBatch) (actionID : result goError Z)
    (wasSigned : result goError bool) (sign : option goError) : Executor nat :=
  {| GetStoredBatch := fun n => (batch, n);
     GetAndStoreActionIDForProposeSetStatusFromElrond := fun _ n => (actionID, n);
     WasActionSignedOnElrond := fun _ n => (wasSigned, n);
     SignActionOnElrond := fun _ n => (sign, S n) |}.

End steps.

(** ** package batchValidatorManagement: the batch validation client *)
Module batchValidatorManagement.

(** The decoded answer of the microservice, [{ valid: <bool> }]. *)
Record microserviceResponse : Type := { Valid : bool }.

(** [context.WithTimeout(ctx, d)]: the parent and the time allowed. *)
Record requestContext : Type := { parent : context; timeout : Z }.

(** An HTTP response as the validator reads it: the status code and what
  [ioutil.ReadAll(response.Body)] gives. *)
Record Response : Type := { StatusCode : Z; Body : result goError (list byte) }.

Section Validator.
(** [net/http] and [encoding/json] are libraries: the validator is
  embedded over any request type, request constructor, client and codec. *)
Context {Request : Type}.
Variable json_Marshal : option clients.BatchValue -> result goError (list byte).
Variable json_Unmarshal : list byte -> result goError microserviceResponse.
Variable http_NewRequestWithContext :
  requestContext -> string -> string -> list byte -> result goError Request.

(** The [HTTPClient] interface. *)
Record HTTPClient : Type := { Do : Request -> result goError Response }.

Record batchValidator : Type := {
  requestURL : string;
  requestTime : Z;
  httpClient : HTTPClient
}.

Definition MethodPost : string := "POST".

(** [ioutil.ReadAll] returns a slice that is not nil, also for an empty
  body; a nil [[]byte] is [None]. *)
Definition ioutil_ReadAll (body : result goError (list byte))
  : result goError (option (list byte)) :=
  match body with
  | Ok bs => Ok (Some bs)
  | Err e => Err e
  end.

Definition doRequestReturningBytes (bv : batchValidator) (batch : list byte)
    (ctx : requestContext) : result goError (option (list byte)) :=
  match http_NewRequestWithContext ctx MethodPost (requestURL bv) batch with
  | Err err => Err err
  | Ok request =>
      match Do (httpClient bv) request with
      | Err err => Err err
      | Ok response =>
          match ioutil_ReadAll (Body response) with
          | Err err => Err err
          | Ok body => Ok body
          end
      end
  end.

Definition doRequest (bv : batchValidator) (ctx : context) (batch : list byte)
  : result goError (option (list byte)) :=
  let requestContext := {| parent := ctx; timeout := requestTime bv |} in
  match doRequestReturningBytes bv batch requestContext with
  | Err err => Err err
  | Ok responseAsBytes => Ok responseAsBytes
  end.

Definition ValidateBatch (bv : batchValidator) (ctx : context)
    (batch : option clients.BatchValue) : bool * option goError :=
  match json_Marshal batch with
  | Err err => (false, Some ("during marshal: " +:+ err))
  | Ok body =>
      match doRequest bv ctx body with
      | Err err => (false, Some ("executing request: " +:+ err))
      | Ok None => (false, Some "empty response")
      | Ok (Some responseAsBytes) =>
          match json_Unmarshal responseAsBytes with
          | Err err => (false, Some ("during unmarshal: " +:+ err))
          | Ok response => (Valid response, None)
          end
      end
  end.

(** A status code of the 2xx class. *)
Definition is2xx (status : Z) : bool := (200 <=? status) && (status <? 300).

End Validator.

Arguments HTTPClient : clear implicits.
Arguments batchValidator : clear implicits.

(** *** Stand-ins for the libraries, to run the validator *)

(** A request that keeps what it was made from; making one never fails. *)
Record plainRequest : Type := {
  reqContext : requestContext;
  reqMethod : string;
  reqURL : string;
  reqBody : list byte
}.
Definition newPlainRequest (c : requestContext) (m u : string) (b : list byte)
  : result goError plainRequest :=
  Ok {| reqContext := c; reqMethod := m; reqURL := u; reqBody := b |}.

(** A client in front of a server that answers after [latency] with
  [status] and [body]; a request whose context allows less time fails, as
  with [http.Client] once the deadline of the context has passed. *)
Definition server (latency status : Z) (body : list byte) : HTTPClient plainRequest :=
  {| Do := fun req =>
       if (timeout (reqContext req) <? latency)%Z
       then Err "context deadline exceeded"
       else Ok {| StatusCode := status; Body := Ok body |} |}.

(** A client whose transport fails. *)
Definition unreachable : HTTPClient plainRequest :=
  {| Do := fun _ => Err "connection refused" |}.

(** A decoder for flat JSON objects, enough for the answers of the
  microservice: it reads the member [valid] of an object of scalars and
  refuses whatever is no such object. *)
Inductive token :=
| TLBrace | TRBrace | TColon | TComma
| TString (s : list byte) | TTrue | TFalse | TNull.

Definition isSpace (b : byte) : bool :=
  match b with
  | x20 | x09 | x0a | x0d => true
  | _ => false
  end.

(** The bytes of a string up to its closing quote, and what follows it;
  escapes are not read. *)
Fixpoint stringBody (bs : list byte) : option (list byte * list byte) :=
  match bs with
  | [] => None
  | x22 :: rest => Some ([], rest)
  | x5c :: _ => None
  | b :: rest =>
      match stringBody rest with
      | Some (s, rest') => Some (b :: s, rest')
      | None => None
      end
  end.

Fixpoint tokenize (fuel : nat) (bs : list byte) : option (list token) :=
  match fuel with
  | O => match bs with [] => Some [] | _ => None end
  | S fuel' =>
      match bs with
      | [] => Some []
      | x7b :: rest => cons TLBrace <$> tokenize fuel' rest
      | x7d :: rest => cons TRBrace <$> tokenize fuel' rest
      | x3a :: rest => cons TColon <$> tokenize fuel' rest
      | x2c :: rest => cons TComma <$> tokenize fuel' rest
      | x22 :: rest =>
          match stringBody rest with
          | Some (s, rest') => cons (TString s) <$> tokenize fuel' rest'
          | None => None
          end
      | x74 :: x72 :: x75 :: x65 :: rest => cons TTrue <$> tokenize fuel' rest
      | x66 :: x61 :: x6c :: x73 :: x65 :: rest => cons TFalse <$> tokenize fuel' rest
      | x6e :: x75 :: x6c :: x6c :: rest => cons TNull <$> tokenize fuel' rest
      | b :: rest => if isSpace b then tokenize fuel' rest else None
      end
  end.

(** The members of an object after its opening brace. *)
Fixpoint members (fuel : nat) (ts : list token) : option (list (list byte * token)) :=
  match fuel with
  | O => None
  | S fuel' =>
      match ts with
      | TString k :: TColon :: v :: rest =>
          match v with
          | TString _ | TTrue | TFalse | TNull =>
              match rest with
              | [TRBrace] => Some [(k, v)]
              | TComma :: rest' => cons (k, v) <$> members fuel' rest'
              | _ => None
              end
          | _ => None
          end
      | _ => None
      end
  end.

Definition validKey : list byte := [x76; x61; x6c; x69; x64].

Fixpoint readValid (ms : list (list byte * token)) (acc : bool) : result goError bool :=
  match ms with
  | [] => Ok acc
  | (k, v) :: ms' =>
      if decide (k = validKey) then
        match v with
        | TTrue => readValid ms' true
        | TFalse => readValid ms' false
        | TNull => readValid ms' acc
        | _ => Err "json: cannot unmarshal string into Go struct field of type bool"
        end
      else readValid ms' acc
  end.

Definition decodeResponse (bs : list byte) : result goError microserviceResponse :=
  match tokenize (length bs) bs with
  | Some [TLBrace; TRBrace] => Ok {| Valid := false |}
  | Some (TLBrace :: ts) =>
      match members (length ts) ts with
      | Some ms =>
          match readValid ms false with
          | Ok b => Ok {| Valid := b |}
          | Err e => Err e
          end
      | None => Err "invalid character in JSON input"
      end
  | Some [] => Err "unexpected end of JSON input"
  | _ => Err "invalid character in JSON input"
  end.

(** An encoder that writes the batch id only, and one that fails. *)
Definition encodeBatch (b : option clients.BatchValue) : result goError (list byte) :=
  match b with
  | None => Ok [x6e; x75; x6c; x6c]
  | Some _ => Ok [x7b; x7d]
  end.
Definition encodeFails (b : option clients.BatchValue) : result goError (list byte) :=
  Err "json: unsupported type".

(** The bodies [{"valid":true}], [{"valid":false}] and [not json]. *)
Definition validTrueBody : list byte :=
  [x7b; x22; x76; x61; x6c; x69; x64; x22; x3a; x74; x72; x75; x65; x7d].
Definition validFalseBody : list byte :=
  [x7b; x22; x76; x61; x6c; x69; x64; x22; x3a; x66; x61; x6c; x73; x65; x7d].
Definition malformedBody : list byte :=
  [x6e; x6f; x74; x20; x6a; x73; x6f; x6e].

(** A validator with a second to answer, in nanoseconds as [time.Duration]. *)
Definition validatorFor (client : HTTPClient plainRequest) : batchValidator plainRequest :=
  {| requestURL := "http://validator/Ethereum/Elrond";
     requestTime := 1000000000;
     httpClient := client |}.

(** *** The constructor *)

(** [ArgsBatchValidator]; [clients.Chain] is a defined string type and
  [time.Duration] counts nanoseconds. *)
Record ArgsBatchValidator : Type := {
  SourceChain : string;
  DestinationChain : string;
  RequestURL : string;
  RequestTime : Z
}.

(** The two errors of [checkArgs], both wrapping [clients.ErrInvalidValue]:
  the one that quotes a chain and the one for the request time. *)
Inductive error :=
| ErrInvalidValueChain (chain : string)
| ErrInvalidValueRequestTime.

(** [time.Millisecond]. *)
Definition minRequestTime : Z := 1000000.

Section Constructor.
Context {Request : Type}.
(** [clients.Ethereum] and [clients.Elrond], constants declared outside the
  sources at hand, and [http.DefaultClient]. *)
Variables Ethereum Elrond : string.
Variable http_DefaultClient : HTTPClient Request.

Definition checkArgs (args : ArgsBatchValidator) : option error :=
  if decide (SourceChain args = Ethereum \/ SourceChain args = Elrond) then
    if decide (DestinationChain args = Ethereum \/ DestinationChain args = Elrond) then
      if (RequestTime args <? minRequestTime)%Z then Some ErrInvalidValueRequestTime
      else None
    else Some (ErrInvalidValueChain (DestinationChain args))
  else Some (ErrInvalidValueChain (SourceChain args)).

Definition NewBatchValidator (args : ArgsBatchValidator)
  : result error (batchValidator Request) :=
  match checkArgs args with
  | Some err => Err err
  | None =>
      Ok {| requestURL := RequestURL args +:+ "/" +:+ SourceChain args +:+ "/"
                            +:+ DestinationChain args;
            requestTime := RequestTime args;
            httpClient := http_DefaultClient |}
  end.

End Constructor.

End batchValidatorManagement.

(** ** package ethereum: the Ethereum client *)
Module ethereum.

(** [common.Address] is 20 bytes, [common.Hash] 32; a signature is a byte
  string. *)
Definition AddressLength : nat := 20.

(** [common.BytesToAddress]: the last 20 bytes, padded with zeros on the
  left. *)
Definition BytesToAddress (b : list byte) : list byte :=
  let b' := drop (length b - AddressLength) b in
  replicate (AddressLength - length b') x00 ++ b'.

(** [int64(x)] of a [uint64]. *)
Definition toInt64 (x : Z) : Z := (x + 2 ^ 63) `mod` 2 ^ 64 - 2 ^ 63.

(** The errors of the package, with what [fmt.Errorf] wraps into them, and
  the errors of collaborators, passed on as they came. *)
Inductive error :=
| errNilBatch
| errQuorumNotReached (numSignatures quorum : Z)
| errInsufficientErc20Balance (existing required : Z) (erc20 safe : list byte)
| errInGetNonce (e : goError)
| errBalanceOf (e : goError) (safe erc20 : list byte)
| errFrom (e : goError).

(** The fields of [bind.TransactOpts] that the client sets. *)
Record TransactOpts : Type := {
  From : list byte;
  Nonce : option Z;
  Value : option Z;
  GasPrice : option Z;
  GasLimit : Z;
  Context : option context
}.

Record argListsBatch : Type := {
  tokens : list (list byte);
  recipients : list (list byte);
  amounts : list Z;
  nonces : list Z
}.

(** What the client does to its collaborators, in the order it does it. *)
Inductive call :=
| CallBlockNumber
| CallNonceAt (account : list byte) (blockNumber : Z)
| CallChainID
| CallGetCurrentGasPrice
| CallSignatures (msgHash : list byte)
| CallConvertToken (token : list byte)
| CallBalanceOf (erc20 safe : list byte)
| CallExecuteTransfer (auth : TransactOpts) (args : argListsBatch) (batchID : Z)
    (signatures : list (list byte))
| CallLog (l : state.level) (msg : string).

(** The signature sets handed to the contract, call by call. *)
Fixpoint contractCalls (calls : list call) : list (list (list byte)) :=
  match calls with
  | [] => []
  | CallExecuteTransfer _ _ _ signatures :: rest => signatures :: contractCalls rest
  | _ :: rest => contractCalls rest
  end.

Section Client.
(** [Env] is the state behind the collaborators: the chain, the gas
  station, the signatures received so far. *)
Context {Env : Type}.

Record ClientWrapper : Type := {
  BlockNumber : context -> Env -> result goError Z * Env;
  NonceAt : context -> list byte -> Z -> Env -> (Z * option goError) * Env;
  ChainID : context -> Env -> result goError (option Z) * Env;
  ExecuteTransfer_contract :
    TransactOpts -> argListsBatch -> Z -> list (list byte) -> Env
    -> result goError string * Env       (* the hash of the transaction *)
}.
Record GasHandler : Type := { GetCurrentGasPrice : Env -> result goError Z * Env }.
Record SignaturesHolder : Type := { Signatures : list byte -> Env -> list (list byte) * Env }.
Record TokensMapper : Type := {
  ConvertToken : context -> list byte -> Env -> result goError (list byte) * Env
}.
Record Erc20ContractsHolder : Type := {
  BalanceOf : context -> list byte -> list byte -> Env -> result goError Z * Env
}.

(** The client. Instead of the key pair it holds what the code derives from
  it: the address [crypto.PubkeyToAddress] gives for the public key, and
  [bind.NewKeyedTransactorWithChainID] applied to the private key. *)
Record client : Type := {
  clientWrapper : ClientWrapper;
  erc20ContractsHandler : Erc20ContractsHolder;
  relayerAddress : list byte;
  newKeyedTransactor : option Z -> result goError TransactOpts;
  tokensMapper : TokensMapper;
  signatureHolder : SignaturesHolder;
  safeContractAddress : list byte;
  gasHandler : GasHandler;
  transferGasLimit : Z
}.

(** The order in which [range] visits the map of cumulated transfers. *)
Variable range : gmap (list byte) Z -> list (list byte * Z).

(** A method runs on the collaborators' state and the calls made so far; it
  returns or panics. *)
Definition exec (A : Type) : Type := Env * list call -> outcome A * (Env * list call).
Definition ret {A} (a : A) : exec A := fun st => (Returned a, st).
Definition panic {A} : exec A := fun st => (Panicked, st).
Definition bind {A C} (m : exec A) (k : A -> exec C) : exec C :=
  fun st =>
    match m st with
    | (Returned a, st') => k a st'
    | (Panicked, st') => (Panicked, st')
    end.
Definition invoke {A} (c : call) (f : Env -> A * Env) : exec A :=
  fun st => let '(a, e') := f (fst st) in (Returned a, (e', snd st ++ [c])).
Definition logLine (l : state.level) (msg : string) : exec unit :=
  fun st => (Returned tt, (fst st, snd st ++ [CallLog l msg])).

Declare Scope exec_scope.
Local Notation "x <- c ;; k" := (bind c (fun x => k))
  (at level 100, c at next level, k at level 200, right associativity) : exec_scope.
Local Notation "c ;; k" := (bind c (fun _ => k))
  (at level 100, k at level 200, right associativity) : exec_scope.
Local Open Scope exec_scope.

Definition getNonce (c : client) (ctx : context) (fromAddress : list byte)
  : exec (Z * option error) :=
  r <- invoke CallBlockNumber (BlockNumber (clientWrapper c) ctx) ;;
  match r with
  | Err err => ret (0, Some (errInGetNonce err))
  | Ok blockNonce =>
      r' <- invoke (CallNonceAt fromAddress (toInt64 blockNonce))
              (NonceAt (clientWrapper c) ctx fromAddress (toInt64 blockNonce)) ;;
      ret (toInt64 (fst r'), errFrom <$> snd r')
  end.

(** The loop of [extractList] over the deposits left; a nil amount makes
  [big.NewInt(0).Set] panic. *)
Fixpoint extractListFrom (c : client) (ctx : context)
    (deposits : list clients.DepositValue) (arg : argListsBatch)
  : exec (result error argListsBatch) :=
  match deposits with
  | [] => ret (Ok arg)
  | dt :: rest =>
      let recipient := BytesToAddress (clients.toBytes dt) in
      let arg1 := {| tokens := tokens arg; recipients := recipients arg ++ [recipient];
                     amounts := amounts arg; nonces := nonces arg |} in
      r <- invoke (CallConvertToken (clients.tokenBytes dt))
             (ConvertToken (tokensMapper c) ctx (clients.tokenBytes dt)) ;;
      match r with
      | Err err => ret (Err (errFrom err))
      | Ok erc20TokenBytes =>
          let token := BytesToAddress erc20TokenBytes in
          match clients.amount dt with
          | None => panic
          | Some amount =>
              extractListFrom c ctx rest
                {| tokens := tokens arg1 ++ [token]; recipients := recipients arg1;
                   amounts := amounts arg1 ++ [amount];
                   nonces := nonces arg1 ++ [clients.nonce dt] |}
          end
      end
  end.

Definition extractList (c : client) (ctx : context) (batch : clients.BatchValue)
  : exec (result error argListsBatch) :=
  extractListFrom c ctx (clients.depositValues batch)
    {| tokens := []; recipients := []; amounts := []; nonces := [] |}.

(** The loop of [getCumulatedTransfers] from index [i]; indexing [amounts]
  out of range panics. *)
Fixpoint getCumulatedTransfersFrom (tokens : list (list byte)) (amounts : list Z)
    (i : nat) (transfers : gmap (list byte) Z) : outcome (gmap (list byte) Z) :=
  match tokens with
  | [] => Returned transfers
  | token :: rest =>
      let existing := default 0 (transfers !! token) in
      match amounts !! i with
      | None => Panicked
      | Some a =>
          getCumulatedTransfersFrom rest amounts (S i) (<[token := existing + a]> transfers)
      end
  end.

Definition getCumulatedTransfers (tokens : list (list byte)) (amounts : list Z)
  : outcome (gmap (list byte) Z) :=
  getCumulatedTransfersFrom tokens amounts 0 ∅.

Fixpoint checkCumulatedTransfersFrom (c : client) (ctx : context)
    (transfers : list (list byte * Z)) : exec (option error) :=
  match transfers with
  | [] => ret None
  | (erc20Address, value) :: rest =>
      r <- invoke (CallBalanceOf erc20Address (safeContractAddress c))
             (BalanceOf (erc20ContractsHandler c) ctx erc20Address (safeContractAddress c)) ;;
      match r with
      | Err err => ret (Some (errBalanceOf err (safeContractAddress c) erc20Address))
      | Ok existingBalance =>
          if (existingBalance <? value)%Z then
            ret (Some (errInsufficientErc20Balance existingBalance value erc20Address
                         (safeContractAddress c)))
          else
            logLine state.LogDebug "checked ERC20 balance" ;;
            checkCumulatedTransfersFrom c ctx rest
      end
  end.

Definition checkCumulatedTransfers (c : client) (ctx : context)
    (transfers : gmap (list byte) Z) : exec (option error) :=
  checkCumulatedTransfersFrom c ctx (range transfers).

Definition checkAvailableTokens (c : client) (ctx : context)
    (tokens : list (list byte)) (amounts : list Z) : exec (option error) :=
  match getCumulatedTransfers tokens amounts with
  | Panicked => panic
  | Returned transfers => checkCumulatedTransfers c ctx transfers
  end.

(** [signatures[:quorum]], reached only when [len(signatures) > quorum]: a
  negative bound panics. *)
Definition sliceTo (signatures : list (list byte)) (quorum : Z) : exec (list (list byte)) :=
  if (quorum <? 0)%Z then panic else ret (take (Z.to_nat quorum) signatures).

Definition ExecuteTransfer (c : client) (ctx : context) (msgHash : list byte)
    (batch : option clients.BatchValue) (quorum : Z) : exec (string * option error) :=
  match batch with
  | None => ret ("", Some errNilBatch)
  | Some b =>
      logLine state.LogInfo "executing transfer" ;;
      let fromAddress := relayerAddress c in
      n <- getNonce c ctx fromAddress ;;
      match n with
      | (_, Some err) => ret ("", Some err)
      | (nonce, None) =>
          ch <- invoke CallChainID (ChainID (clientWrapper c) ctx) ;;
          match ch with
          | Err err => ret ("", Some (errFrom err))
          | Ok chainId =>
              match newKeyedTransactor c chainId with
              | Err err => ret ("", Some (errFrom err))
              | Ok auth0 =>
                  g <- invoke CallGetCurrentGasPrice (GetCurrentGasPrice (gasHandler c)) ;;
                  match g with
                  | Err err => ret ("", Some (errFrom err))
                  | Ok gasPrice =>
                      let auth := {| From := From auth0;
                                     Nonce := Some nonce;
                                     Value := Some 0;
                                     GasPrice := Some gasPrice;
                                     GasLimit := transferGasLimit c;
                                     Context := Some ctx |} in
                      signatures <- invoke (CallSignatures msgHash)
                                      (Signatures (signatureHolder c) msgHash) ;;
                      if (Z.of_nat (length signatures) <? quorum)%Z then
                        ret ("", Some (errQuorumNotReached
                                         (Z.of_nat (length signatures)) quorum))
                      else
                        signatures' <-
                          (if (quorum <? Z.of_nat (length signatures))%Z then
                             logLine state.LogDebug
                               "reducing the size of the signatures set" ;;
                             sliceTo signatures quorum
                           else ret signatures) ;;
                        a <- extractList c ctx b ;;
                        match a with
                        | Err err => ret ("", Some err)
                        | Ok argLists =>
                            t <- checkAvailableTokens c ctx
                                   (tokens argLists) (amounts argLists) ;;
                            match t with
                            | Some err => ret ("", Some err)
                            | None =>
                                let batchID := clients.id b in
                                x <- invoke
                                       (CallExecuteTransfer auth argLists batchID signatures')
                                       (ExecuteTransfer_contract (clientWrapper c)
                                          auth argLists batchID signatures') ;;
                                match x with
                                | Err err => ret ("", Some (errFrom err))
                                | Ok txHash =>
                                    logLine state.LogInfo "Executed transfer transaction" ;;
                                    ret (txHash, None)
                                end
                            end
                        end
                  end
              end
          end
      end
  end.

End Client.

Arguments client : clear implicits.
Arguments ClientWrapper : clear implicits.
Arguments GasHandler : clear implicits.
Arguments SignaturesHolder : clear implicits.
Arguments TokensMapper : clear implicits.
Arguments Erc20ContractsHolder : clear implicits.

(** A client over collaborators that all succeed, but for the block number
  query, which answers [blockNumber]; the signature holder holds [sigs]. *)
Definition stubAuth : TransactOpts :=
  {| From := replicate 20 x01; Nonce := None; Value := None; GasPrice := None;
     GasLimit := 0; Context := None |}.
Definition stubClient (blockNumber : result goError Z) (sigs : list (list byte))
  : client unit :=
  {| clientWrapper :=
       {| BlockNumber := fun _ e => (blockNumber, e);
          NonceAt := fun _ _ _ e => ((7, None), e);
          ChainID := fun _ e => (Ok (Some 1), e);
          ExecuteTransfer_contract := fun _ _ _ _ e => (Ok "0xabc", e) |};
     erc20ContractsHandler := {| BalanceOf := fun _ _ _ e => (Ok 1000, e) |};
     relayerAddress := replicate 20 x01;
     newKeyedTransactor := fun _ => Ok stubAuth;
     tokensMapper := {| ConvertToken := fun _ t e => (Ok t, e) |};
     signatureHolder := {| Signatures := fun _ e => (sigs, e) |};
     safeContractAddress := replicate 20 x02;
     gasHandler := {| GetCurrentGasPrice := fun e => (Ok 50, e) |};
     transferGasLimit := 100000 |}.

(** The batch [{ID: 7, Deposits: [{Nonce: 1, Amount: 100, ...}]}]. *)
Definition batch7 : clients.BatchValue :=
  {| clients.id := 7;
     clients.depositValues :=
       [{| clients.nonce := 1; clients.toBytes := [x0a]; clients.displayableTo := "R";
           clients.fromBytes := [x0b]; clients.displayableFrom := "F";
           clients.tokenBytes := [x0c]; clients.displayableToken := "T";
           clients.amount := Some 100 |}] |}.
Definition threeSignatures : list (list byte) := [[x01]; [x02]; [x03]].

(** What the transfers of a batch take of one token: the sum of the amounts
  at the places where [tokens] holds [token]. *)
Fixpoint sumFor (token : list byte) (tokens : list (list byte)) (amounts : list Z) : Z :=
  match tokens, amounts with
  | t :: tokens', a :: amounts' =>
      (if decide (t = token) then a else 0) + sumFor token tokens' amounts'
  | _, _ => 0
  end.

(** The batch [{ID: 8}] with two deposits of 60 of the same token. *)
Definition batch8 : clients.BatchValue :=
  {| clients.id := 8;
     clients.depositValues :=
       [{| clients.nonce := 1; clients.toBytes := [x0a]; clients.displayableTo := "R";
           clients.fromBytes := [x0b]; clients.displayableFrom := "F";
           clients.tokenBytes := [x0c]; clients.displayableToken := "T";
           clients.amount := Some 60 |};
        {| clients.nonce := 2; clients.toBytes := [x0d]; clients.displayableTo := "S";
           clients.fromBytes := [x0b]; clients.displayableFrom := "F";
           clients.tokenBytes := [x0c]; clients.displayableToken := "T";
           clients.amount := Some 60 |}] |}.

(** A client like [stubClient] whose safe holds [balance] of every token. *)
Definition stubClientWithBalance (balance : Z) (sigs : list (list byte)) : client unit :=
  {| clientWrapper := clientWrapper (stubClient (Ok 5) sigs);
     erc20ContractsHandler := {| BalanceOf := fun _ _ _ e => (Ok balance, e) |};
     relayerAddress := relayerAddress (stubClient (Ok 5) sigs);
     newKeyedTransactor := newKeyedTransactor (stubClient (Ok 5) sigs);
     tokensMapper := tokensMapper (stubClient (Ok 5) sigs);
     signatureHolder := signatureHolder (stubClient (Ok 5) sigs);
     safeContractAddress := safeContractAddress (stubClient (Ok 5) sigs);
     gasHandler := gasHandler (stubClient (Ok 5) sigs);
     transferGasLimit := transferGasLimit (stubClient (Ok 5) sigs) |}.

(** [batch7] as another relayer may hold it: other display strings, another
  depositor, and the recipient written with a leading zero byte. *)
Definition batch7Relabelled : clients.BatchValue :=
  {| clients.id := 7;
     clients.depositValues :=
       [{| clients.nonce := 1; clients.toBytes := [x00; x0a]; clients.displayableTo := "r";
           clients.fromBytes := [x0f]; clients.displayableFrom := "f";
           clients.tokenBytes := [x0c]; clients.displayableToken := "t";
           clients.amount := Some 100 |}] |}.

(** *** The message hash *)

(** [abi.Argument], over the types [abi.NewType] makes. *)
Record Argument (AbiType : Type) : Type := { Name : string; Type_ : AbiType }.
Arguments Name {AbiType} _.
Arguments Type_ {AbiType} _.

(** [messagePrefix], the byte 0x19 and [Ethereum Signed Message:\n32]. *)
Definition messagePrefix : list byte :=
  [x19; x45; x74; x68; x65; x72; x65; x75; x6d; x20; x53; x69; x67; x6e; x65; x64;
   x20; x4d; x65; x73; x73; x61; x67; x65; x3a; x0a; x33; x32].

(** [common.Hash{}]. *)
Definition zeroHash : list byte := replicate 32 x00.

Section MessageHash.
Context {Env AbiType : Type}.
(** [abi.NewType], [abi.Arguments.Pack] and [crypto.Keccak256Hash] are
  library functions. *)
Variable abi_NewType : string -> result goError AbiType.
Variable Pack : list (Argument AbiType) -> list (list byte) -> list (list byte) ->
  list Z -> list Z -> Z -> string -> result goError (list byte).
Variable Keccak256Hash : list byte -> list byte.

Definition generateTransferArgs : result goError (list (Argument AbiType)) :=
  match abi_NewType "address[]" with
  | Err err => Err err
  | Ok addressesType =>
      match abi_NewType "uint256[]" with
      | Err err => Err err
      | Ok uint256ArrayType =>
          match abi_NewType "uint256" with
          | Err err => Err err
          | Ok uint256Type =>
              match abi_NewType "string" with
              | Err err => Err err
              | Ok stringType =>
                  Ok [ {| Name := "tokens"; Type_ := addressesType |};
                       {| Name := "recipients"; Type_ := addressesType |};
                       {| Name := "amounts"; Type_ := uint256ArrayType |};
                       {| Name := "nonces"; Type_ := uint256ArrayType |};
                       {| Name := "nonce"; Type_ := uint256Type |};
                       {| Name := "executeTransfer"; Type_ := stringType |} ]
              end
          end
      end
  end.

Definition GenerateMessageHash (c : client Env) (ctx : context)
    (batch : option clients.BatchValue) : exec (list byte * option error) :=
  match batch with
  | None => ret (zeroHash, Some errNilBatch)
  | Some b =>
      match generateTransferArgs with
      | Err err => ret (zeroHash, Some (errFrom err))
      | Ok args =>
          bind (extractList c ctx b) (fun a =>
            match a with
            | Err err => ret (zeroHash, Some err)
            | Ok argLists =>
                match Pack args (tokens argLists) (recipients argLists)
                        (amounts argLists) (nonces argLists) (clients.id b)
                        "ExecuteBatchedTransfer" with
                | Err err => ret (zeroHash, Some (errFrom err))
                | Ok pack =>
                    let hash := Keccak256Hash pack in
                    ret (Keccak256Hash (messagePrefix ++ hash), None)
                end
            end)
      end
  end.

End MessageHash.

End ethereum.

(** * Properties *)

(** ** The state machine engine *)
Section EngineProperties.
Import state.
Context {W Logger : Type}.
Variable range : gmap string (option (Step W)) -> list (string * option (Step W)).
Hypothesis range_perm : forall m, range m ≡ₚ map_to_list m.

Implicit Types (sys : system W Logger) (args : ArgsStateMachine W Logger).

Lemma checkSteps_Some (l : list (string * option (Step W))) e :
  checkSteps l = Some e -> exists i, e = ErrNilStep i /\ (i, None) ∈ l.
Proof.
  induction l as [|[i [s|]] l IH]; simpl; intros H.
  - discriminate.
  - destruct (IH H) as (j & -> & Hj). exists j. split; [done|]. by right.
  - inversion H; subst. exists i. split; [done|]. by left.
Qed.

Lemma checkSteps_None (l : list (string * option (Step W))) :
  checkSteps l = None <-> forall i, (i, None) ∉ l.
Proof.
  induction l as [|[i [s|]] l IH]; simpl.
  - split; [intros _ j Hj; by apply elem_of_nil in Hj | done].
  - rewrite IH. split; intros H j Hj.
    + apply elem_of_cons in Hj as [Hj|Hj]; [congruence | by apply (H j)].
    + apply (H j). by right.
  - split; [discriminate|]. intros H. exfalso. apply (H i). by left.
Qed.

Lemma range_elem (m : gmap string (option (Step W))) i o :
  (i, o) ∈ range m <-> m !! i = Some o.
Proof. rewrite (range_perm m). apply elem_of_map_to_list. Qed.

Lemma checkArgs_None args :
  checkArgs range args = None <->
  exists m, Steps args = Some m /\ (forall i, m !! i ≠ Some None) /\ is_Some (Log args).
Proof.
  unfold checkArgs. destruct (Steps args) as [m|].
  - destruct (checkSteps (range m)) as [e|] eqn:Hc.
    + split; [discriminate|]. intros (m' & [= <-] & Hm & _).
      apply checkSteps_Some in Hc as (i & _ & Hi). apply range_elem in Hi.
      by destruct (Hm i).
    + assert (forall i, m !! i ≠ Some None) as Hm.
      { intros i Hi. apply range_elem in Hi. by apply (proj1 (checkSteps_None _) Hc i). }
      destruct (Log args) as [l|].
      * split; [|done]. intros _. exists m. eauto.
      * split; [discriminate|]. intros (_ & _ & _ & [? ?]). discriminate.
  - split; [discriminate|]. intros (m & ? & _). discriminate.
Qed.

(** The constructor hands out a well-formed engine. *)
Lemma NewStateMachine_wellFormed args w sys0 :
  fst (NewStateMachine range args w) = Ok sys0 -> wellFormed sys0.
Proof.
  unfold NewStateMachine.
  destruct (checkArgs range args) as [e|] eqn:Hc; [discriminate|].
  apply checkArgs_None in Hc as (m & Hm & Hall & Hl).
  unfold getNextStep. simpl. rewrite Hm. simpl.
  destruct (m !! StartStateIdentifier args) as [o|] eqn:Hs; [|discriminate].
  simpl. intros [= <-]. unfold wellFormed. simpl.
  split_and!; eauto.
  intros _. destruct o as [s|]; [eauto|]. by destruct (Hall (StartStateIdentifier args)).
Qed.

Lemma Close_wellFormed sys : wellFormed sys -> wellFormed (snd (Close sys)).
Proof.
  intros Hwf. unfold Close. destruct (cancel (sm sys)); [|done].
  exact Hwf.
Qed.

Lemma enter_wellFormed sys :
  wellFormed sys -> loop sys = Launched -> wellFormed (enter sys).
Proof.
  intros (Hl & Hc & Hs & Hcur) HL. unfold wellFormed, enter. simpl.
  split_and!; auto.
Qed.

Lemma selectCase_wellFormed ev sys :
  wellFormed sys -> loop sys = Running -> wellFormed (selectCase ev sys).
Proof.
  intros Hwf HR. pose proof Hwf as (Hl & Hc & (m & Hm & Hall) & Hcur).
  destruct ev; simpl.
  - by apply Close_wellFormed.
  - destruct (done (ctx sys)); [|done].
    unfold wellFormed, leave. simpl.
    split_and!; eauto; intros [?|?]; discriminate.
  - unfold executeStep.
    destruct Hl as [l Hl]. destruct (Hcur (or_intror HR)) as [cur Hcur'].
    rewrite Hl, Hcur'.
    destruct (Execute cur (ctx sys) (world sys)) as [id w'].
    unfold getNextStep. rewrite Hm. simpl.
    destruct (m !! id) as [o|] eqn:Hid.
    + unfold wellFormed. simpl. rewrite Hm, Hl. split_and!; eauto.
      intros _. destruct o; [eauto|]. by destruct (Hall id).
    + unfold wellFormed, leave. simpl. rewrite Hm, Hl.
      split_and!; eauto; intros [?|?]; discriminate.
Qed.

Lemma loopIteration_wellFormed ev sys :
  wellFormed sys -> wellFormed (loopIteration ev sys).
Proof.
  intros Hwf. unfold loopIteration.
  destruct ev, (loop sys) eqn:HL; auto using Close_wellFormed.
  - destruct (done (ctx sys)); [|done].
    apply selectCase_wellFormed; [by apply enter_wellFormed | done].
  - by apply selectCase_wellFormed.
  - apply selectCase_wellFormed; [by apply enter_wellFormed | done].
  - by apply selectCase_wellFormed.
Qed.

Lemma executeLoop_wellFormed evs sys :
  wellFormed sys -> wellFormed (executeLoop evs sys).
Proof.
  unfold executeLoop. revert sys.
  induction evs as [|ev evs IH]; simpl; intros sys Hwf; [done|].
  apply IH. by apply loopIteration_wellFormed.
Qed.

(** A loop that has returned stays returned: whatever happens afterwards, no
  step runs, nothing is logged and the machine is left as it is. *)
Lemma returned_loop_is_inert sys evs :
  loop sys ≠ Launched -> loop sys ≠ Running ->
  loop (executeLoop evs sys) = loop sys /\ sm (executeLoop evs sys) = sm sys /\
  world (executeLoop evs sys) = world sys /\ logs (executeLoop evs sys) = logs sys.
Proof.
  unfold executeLoop. revert sys.
  induction evs as [|ev evs IH]; simpl; intros sys HL HR; [done|].
  assert (loop (loopIteration ev sys) = loop sys /\ sm (loopIteration ev sys) = sm sys /\
          world (loopIteration ev sys) = world sys /\
          logs (loopIteration ev sys) = logs sys) as (E1 & E2 & E3 & E4).
  { unfold loopIteration, Close.
    destruct ev, (loop sys) eqn:E; try done; by destruct (cancel (sm sys)). }
  destruct (IH (loopIteration ev sys)) as (F1 & F2 & F3 & F4); [congruence..|].
  split_and!; congruence.
Qed.

(** C1. When the step the loop executes returns an identifier that is no key
  of the graph, the loop writes the error line and returns with
  [ErrStepNotFound]; from then on, whatever happens, it stays returned, no
  step runs any more (the state the steps act upon and the log stay as they
  are) and the machine is unchanged. When the identifier is a key of the
  graph, the loop keeps running with the mapped step as its current step,
  and that step is what the next timer tick executes. *)
Theorem executeLoop_unknown_identifier_is_fatal
    args w sys0 evs (m : gmap string (option (Step W))) cur id w' :
  fst (NewStateMachine range args w) = Ok sys0 ->
  let sys := executeLoop evs sys0 in
  loop sys = Launched \/ loop sys = Running ->
  steps (sm sys) = Some m ->
  currentStep (sm sys) = Some cur ->
  Execute cur (ctx sys) (world sys) = (id, w') ->
  let sys' := executeLoop [EvTimer] sys in
  world sys' = w' /\
  (m !! id = None ->
     loop sys' = Stopped (ErrStepNotFound id) /\
     last (logs sys') =
       Some (line LogError (stateMachineName (sm sys) +:+ ": state machine error")
               [("status", "state machine stopped");
                ("error", errorText (ErrStepNotFound id))]) /\
     loopStatus (sm sys') = false /\
     forall evs',
       let sys'' := executeLoop evs' sys' in
       loop sys'' = Stopped (ErrStepNotFound id) /\ sm sys'' = sm sys' /\
       world sys'' = w' /\ logs sys'' = logs sys') /\
  (forall next, m !! id = Some next ->
     exists s', next = Some s' /\ loop sys' = Running /\
       currentStep (sm sys') = Some s' /\
       world (executeLoop [EvTimer] sys') = snd (Execute s' (ctx sys') w')).
Proof.
  intros H0 sys Hloop Hm Hcur Hex sys'.
  assert (wellFormed sys) as Hwf.
  { apply executeLoop_wellFormed. by eapply NewStateMachine_wellFormed. }
  destruct Hwf as ([l Hl] & _ & (m' & Hm' & Hall) & _).
  assert (m' = m) as -> by congruence.
  set (sysR := match loop sys with Launched => enter sys | _ => sys end).
  assert (loop sysR = Running /\ log (sm sysR) = Some l /\
          currentStep (sm sysR) = Some cur /\ steps (sm sysR) = Some m /\
          ctx sysR = ctx sys /\ world sysR = world sys /\ logs sysR = logs sys /\
          stateMachineName (sm sysR) = stateMachineName (sm sys))
    as (RL & Rl & Rcur & Rm & Rctx & Rw & Rlogs & Rname).
  { unfold sysR. destruct Hloop as [E|E]; rewrite E; simpl; by split_and!. }
  assert (sys' = selectCase EvTimer sysR) as Es'.
  { unfold sys', executeLoop, sysR. simpl. unfold loopIteration.
    destruct Hloop as [E|E]; by rewrite E. }
  assert (executeStep sysR =
          Some ({| sm := withCurrentStep (sm sysR) (default None (m !! id));
                   ctx := ctx sys; world := w';
                   logs := logs sys ++ [line LogTrace
                              (stateMachineName (sm sys) +:+ ": executing step")
                              [("step", Identifier cur)]];
                   loop := Running |},
                match m !! id with
                | Some _ => None
                | None => Some (ErrStepNotFound id)
                end)) as Estep.
  { unfold executeStep, getNextStep.
    rewrite Rl, Rcur, Rctx, Rw, Hex, Rm, Rlogs, Rname, RL. simpl.
    by destruct (m !! id). }
  simpl in Es'. rewrite Estep in Es'.
  split_and!.
  - rewrite Es'. by destruct (m !! id).
  - intros Hid. rewrite Hid in Es'.
    assert (loop sys' = Stopped (ErrStepNotFound id)) as EL by by rewrite Es'.
    split_and!; [done| | |].
    + rewrite Es'. simpl. by rewrite last_snoc, Rname.
    + by rewrite Es'.
    + intros evs' sys''.
      destruct (returned_loop_is_inert sys' evs') as (F1 & F2 & F3 & F4).
      * by rewrite EL.
      * by rewrite EL.
      * unfold sys''. split_and!; [congruence|done| |done].
        rewrite F3, Es'. done.
  - intros next Hid. rewrite Hid in Es'.
    destruct next as [s'|]; [|by destruct (Hall id)].
    exists s'. split_and!; [done | by rewrite Es' | by rewrite Es' |].
    unfold executeLoop. simpl. unfold loopIteration.
    rewrite Es'. simpl. unfold executeStep. simpl. rewrite Rl.
    destruct (Execute s' (ctx sys) w') as [id2 w2]. simpl.
    by destruct (getNextStep _ id2).
Qed.

(** C2. [NewStateMachine] reports each invalid argument with its own error
  and in the order of its checks: a nil steps map gives [ErrNilStepsMap]; a
  nil step in the map gives [ErrNilStep] naming an identifier whose step is
  nil (the identifier itself when it is the only one); with every step
  present, a nil logger gives [ErrNilLogger]; with steps and logger
  present, a start identifier that is no key of the map gives
  [ErrStepNotFound] naming it. An error comes with no handle and no
  goroutine, and a handle is returned only when every argument is valid. *)
Theorem NewStateMachine_rejects_invalid_arguments args w :
  (Steps args = None ->
     NewStateMachine range args w = (Err ErrNilStepsMap, [])) /\
  (forall m X, Steps args = Some m -> m !! X = Some None ->
     exists Y, m !! Y = Some None /\
       NewStateMachine range args w = (Err (ErrNilStep Y), []) /\
       ((forall Z, m !! Z = Some None -> Z = X) -> Y = X)) /\
  (forall m, Steps args = Some m -> (forall i, m !! i ≠ Some None) ->
     Log args = None ->
     NewStateMachine range args w = (Err ErrNilLogger, [])) /\
  (forall m, Steps args = Some m -> (forall i, m !! i ≠ Some None) ->
     is_Some (Log args) -> m !! StartStateIdentifier args = None ->
     NewStateMachine range args w =
       (Err (ErrStepNotFound (StartStateIdentifier args)), [])) /\
  (forall e gs, NewStateMachine range args w = (Err e, gs) -> gs = []) /\
  (forall sys gs, NewStateMachine range args w = (Ok sys, gs) ->
     gs = [GoExecuteLoop] /\
     exists m, Steps args = Some m /\ (forall i, m !! i ≠ Some None) /\
       is_Some (Log args) /\ is_Some (m !! StartStateIdentifier args)).
Proof.
  split_and!.
  - intros Hs. unfold NewStateMachine, checkArgs. by rewrite Hs.
  - intros m X Hs HX. unfold NewStateMachine, checkArgs. rewrite Hs.
    destruct (checkSteps (range m)) as [e|] eqn:Hc.
    + apply checkSteps_Some in Hc as (Y & -> & HY). apply range_elem in HY.
      exists Y. split_and!; [done..|]. intros Huniq. by apply Huniq.
    + exfalso. apply (proj1 (checkSteps_None _) Hc X). by apply range_elem.
  - intros m Hs Hall Hl.
    assert (checkArgs range args = Some ErrNilLogger) as Hc.
    { unfold checkArgs. rewrite Hs, Hl.
      destruct (checkSteps (range m)) as [e|] eqn:Hc; [|done].
      apply checkSteps_Some in Hc as (Y & _ & HY). apply range_elem in HY.
      by destruct (Hall Y). }
    unfold NewStateMachine. by rewrite Hc.
  - intros m Hs Hall Hl Hstart.
    assert (checkArgs range args = None) as Hc by (apply checkArgs_None; eauto).
    unfold NewStateMachine, getNextStep. rewrite Hc. simpl.
    by rewrite Hs; simpl; rewrite Hstart.
  - intros e gs. unfold NewStateMachine.
    destruct (checkArgs range args); [by intros [= _ <-]|].
    destruct (getNextStep _ _); simpl; [discriminate | by intros [= _ <-]].
  - intros sys gs. unfold NewStateMachine.
    destruct (checkArgs range args) eqn:Hc; [discriminate|].
    apply checkArgs_None in Hc as (m & Hs & Hall & Hl).
    unfold getNextStep. simpl. rewrite Hs. simpl.
    destruct (m !! StartStateIdentifier args) eqn:Hstart; simpl; [|discriminate].
    intros [= _ <-]. split; [done|]. exists m. rewrite Hstart. eauto.
Qed.

Lemma closeTimes_spec sys n :
  cancel (sm sys) = Some (snd WithCancel) ->
  (closeTimes n sys).1 = replicate n (Returned None) /\
  ((0 < n)%nat -> done (ctx (closeTimes n sys).2) = true) /\
  sm (closeTimes n sys).2 = sm sys /\ world (closeTimes n sys).2 = world sys /\
  logs (closeTimes n sys).2 = logs sys /\ loop (closeTimes n sys).2 = loop sys.
Proof.
  revert sys. induction n as [|n IH]; intros sys Hf; simpl.
  - split_and!; [done|lia|done..].
  - unfold Close. rewrite Hf.
    set (sys1 := {| sm := sm sys; ctx := WithCancel.2 (ctx sys); world := world sys;
                    logs := logs sys; loop := loop sys |}).
    destruct (IH sys1) as (I1 & I2 & I3 & I4 & I5 & I6); [done|].
    destruct (closeTimes n sys1) as [rs sys2] eqn:E. simpl in *.
    split_and!; [by rewrite I1| |done..].
    intros _. destruct n as [|n]; [|apply I2; lia].
    simpl in E. by injection E as _ <-.
Qed.

(** C9. On every machine made by [NewStateMachine], whatever the loop has
  done so far, [Close] called any number of times returns nil each time and
  never panics; once called, the context of the loop is cancelled, and a
  loop that has not returned then leaves through its [ctx.Done()] case.
  [Close] itself touches nothing but the context. *)
Theorem Close_is_safe_to_repeat args w sys0 evs n :
  fst (NewStateMachine range args w) = Ok sys0 ->
  let sys := executeLoop evs sys0 in
  let after := snd (closeTimes n sys) in
  fst (closeTimes n sys) = replicate n (Returned None) /\
  ((0 < n)%nat -> done (ctx after) = true) /\
  ((0 < n)%nat -> loop sys = Launched \/ loop sys = Running ->
     loop (executeLoop [EvDone] after) = Closed) /\
  sm after = sm sys /\ world after = world sys /\ logs after = logs sys /\
  loop after = loop sys.
Proof.
  intros H0 sys after.
  assert (wellFormed sys) as (_ & Hc & _).
  { apply executeLoop_wellFormed. by eapply NewStateMachine_wellFormed. }
  destruct (closeTimes_spec sys n Hc) as (C1 & C2 & C3 & C4 & C5 & C6).
  fold after in C2, C3, C4, C5, C6.
  split_and!; try done.
  intros Hn Hloop. specialize (C2 Hn).
  unfold executeLoop. simpl. unfold loopIteration. rewrite C6.
  destruct Hloop as [E|E]; rewrite E, C2; simpl; by rewrite ?C2.
Qed.

End EngineProperties.

(** *** The engine on the two-step graph *)

Lemma map_to_list_range {A} (m : gmap string A) : map_to_list m ≡ₚ map_to_list m.
Proof. reflexivity. Qed.

Lemma demoSteps_no_nil i : state.demoSteps !! i ≠ Some None.
Proof.
  unfold state.demoSteps. intros H.
  apply lookup_insert_Some in H as [[_ H]|[_ H]]; [discriminate|].
  apply lookup_insert_Some in H as [[_ H]|[_ H]]; [discriminate|].
  by rewrite lookup_empty in H.
Qed.

Lemma demoSteps_only_X Z :
  (<["X" := None]> state.demoSteps : gmap string _) !! Z = Some None -> Z = "X".
Proof.
  intros H. apply lookup_insert_Some in H as [[<- _]|[_ H]]; [done|].
  by destruct (demoSteps_no_nil Z).
Qed.

(** On the two-step graph: after the first tick the loop is running at [B];
  [B] names [C], no key of the graph, so the second tick stops the loop, and
  no later event moves the counter. *)
Lemma executeLoop_unknown_identifier_witness :
  exists sys0,
    fst (state.NewStateMachine map_to_list state.demoArgs 0%nat) = Ok sys0 /\
    state.loop (state.executeLoop [state.EvTimer] sys0) = state.Running /\
    state.demoSteps !! "C" = None /\
    state.loop (state.executeLoop [state.EvTimer; state.EvTimer] sys0)
      = state.Stopped (state.ErrStepNotFound "C") /\
    forall evs',
      state.world (state.executeLoop evs'
                     (state.executeLoop [state.EvTimer; state.EvTimer] sys0)) = 2%nat.
Proof.
  eexists. split; [vm_compute; reflexivity|].
  match goal with |- context [state.executeLoop [state.EvTimer] ?s] =>
    pose proof (executeLoop_unknown_identifier_is_fatal map_to_list
                  map_to_list_range state.demoArgs 0%nat s [state.EvTimer]
                  state.demoSteps state.stepB "C" 2%nat
                  eq_refl (or_intror eq_refl) eq_refl eq_refl eq_refl) as H
  end.
  destruct H as (_ & Hfatal & _).
  destruct (Hfatal eq_refl) as (H1 & _ & _ & H3).
  split_and!; [reflexivity | reflexivity | exact H1 |].
  intros evs'. apply (H3 evs').
Defined.

(** The four invalid arguments, one at a time, on the two-step graph. *)
Lemma NewStateMachine_rejects_witness :
  state.NewStateMachine map_to_list state.nilMapArgs 0%nat
    = (Err state.ErrNilStepsMap, []) /\
  state.NewStateMachine map_to_list state.nilStepArgs 0%nat
    = (Err (state.ErrNilStep "X"), []) /\
  state.NewStateMachine map_to_list state.nilLoggerArgs 0%nat
    = (Err state.ErrNilLogger, []) /\
  state.NewStateMachine map_to_list state.unknownStartArgs 0%nat
    = (Err (state.ErrStepNotFound "Z"), []).
Proof.
  split_and!.
  - apply (NewStateMachine_rejects_invalid_arguments map_to_list
             map_to_list_range state.nilMapArgs 0%nat). reflexivity.
  - destruct (NewStateMachine_rejects_invalid_arguments map_to_list
                map_to_list_range state.nilStepArgs 0%nat) as (_ & H & _).
    destruct (H _ "X" eq_refl eq_refl) as (Y & _ & HY & Huniq).
    rewrite HY. by rewrite (Huniq demoSteps_only_X).
  - destruct (NewStateMachine_rejects_invalid_arguments map_to_list
                map_to_list_range state.nilLoggerArgs 0%nat) as (_ & _ & H & _).
    apply (H _ eq_refl demoSteps_no_nil eq_refl).
  - destruct (NewStateMachine_rejects_invalid_arguments map_to_list
                map_to_list_range state.unknownStartArgs 0%nat) as (_ & _ & _ & H & _).
    apply (H _ eq_refl demoSteps_no_nil (ex_intro _ tt eq_refl) eq_refl).
Defined.

(** On the two-step graph, after a tick and a first [Close]: two more calls
  return nil, the context is cancelled and the loop then closes. *)
Lemma Close_is_safe_to_repeat_witness :
  exists sys0,
    fst (state.NewStateMachine map_to_list state.demoArgs 0%nat) = Ok sys0 /\
    let sys := state.executeLoop [state.EvTimer; state.EvClose] sys0 in
    fst (state.closeTimes 2 sys) = [Returned None; Returned None] /\
    done (state.ctx (snd (state.closeTimes 2 sys))) = true /\
    state.loop (state.executeLoop [state.EvDone] (snd (state.closeTimes 2 sys)))
      = state.Closed.
Proof.
  eexists. split; [vm_compute; reflexivity|].
  match goal with |- context [state.executeLoop _ ?s] =>
    pose proof (Close_is_safe_to_repeat map_to_list map_to_list_range
                  state.demoArgs 0%nat s [state.EvTimer; state.EvClose] 2 eq_refl) as H
  end.
  destruct H as (H1 & H2 & H3 & _).
  split_and!; [exact H1 | apply H2; lia | apply H3; [lia | by right]].
Defined.

(** ** The steps of the Elrond to Ethereum half-bridge *)
Section StepProperties.
Import elrondToEth.
Context {B : Type}.
Variables GettingPendingBatchFromElrond PerformingSetStatus PerformingTransfer
  WaitingForQuorumOnTransfer : StepIdentifier.

Lemma performAttempts_app (l1 l2 : list call) :
  performAttempts (l1 ++ l2) = (performAttempts l1 + performAttempts l2)%nat.
Proof. unfold performAttempts. by rewrite filter_app, length_app. Qed.

Lemma performAttempts_one (c : call) :
  performAttempts [c] = if decide (c = CallPerformActionOnElrond) then 1%nat else 0%nat.
Proof. unfold performAttempts. rewrite filter_cons. by case_decide. Qed.

Ltac count_attempts :=
  rewrite !performAttempts_app, !performAttempts_one;
  repeat (case_decide; try discriminate);
  rewrite ?Nat.add_0_r, ?Nat.add_1_r; done.

(** C3. [performSetStatusStep.Execute] first asks whether the action was
  performed, on every execution and before anything else. A failing query
  and an action already performed both lead to the fetch-pending step; an
  action not performed keeps a relayer that is not leader at this step; a
  leader performs the action once, stays at this step when that succeeds and
  goes to the fetch-pending step when it fails. The action is attempted in
  no other case. *)
Theorem performSetStatusStep_Execute_decides (ex : Executor B) ctx (b : B) tr :
  let out := performSetStatusStep_Execute GettingPendingBatchFromElrond
               PerformingSetStatus {| bridge := ex |} ctx (b, tr) in
  let next := out.1 in
  let calls := out.2.2 in
  (exists rest, calls = tr ++ CallWasActionPerformedOnElrond :: rest) /\
  (forall e b1, WasActionPerformedOnElrond ex ctx b = (Err e, b1) ->
     next = GettingPendingBatchFromElrond /\
     performAttempts calls = performAttempts tr) /\
  (forall b1, WasActionPerformedOnElrond ex ctx b = (Ok true, b1) ->
     next = GettingPendingBatchFromElrond /\
     performAttempts calls = performAttempts tr) /\
  (forall b1 b2, WasActionPerformedOnElrond ex ctx b = (Ok false, b1) ->
     MyTurnAsLeader ex b1 = (false, b2) ->
     next = PerformingSetStatus /\ performAttempts calls = performAttempts tr) /\
  (forall b1 b2 b3, WasActionPerformedOnElrond ex ctx b = (Ok false, b1) ->
     MyTurnAsLeader ex b1 = (true, b2) ->
     PerformActionOnElrond ex ctx b2 = (None, b3) ->
     next = PerformingSetStatus /\ out.2.1 = b3 /\
     performAttempts calls = S (performAttempts tr)) /\
  (forall b1 b2 b3 e, WasActionPerformedOnElrond ex ctx b = (Ok false, b1) ->
     MyTurnAsLeader ex b1 = (true, b2) ->
     PerformActionOnElrond ex ctx b2 = (Some e, b3) ->
     next = GettingPendingBatchFromElrond /\
     performAttempts calls = S (performAttempts tr)).
Proof.
  unfold performSetStatusStep_Execute, bind, invoke, logLine, ret,
    performSetStatusStep_Identifier. simpl.
  destruct (WasActionPerformedOnElrond ex ctx b) as [[[|]|e] b1] eqn:Hq; simpl.
  - destruct (GetStoredActionID ex b1) as [a b1']. simpl.
    split_and!; try (intros; discriminate).
    + eexists. by rewrite <- !app_assoc.
    + intros ? [= <-]. split; [done|]. count_attempts.
  - destruct (MyTurnAsLeader ex b1) as [[|] b2] eqn:Hl; simpl.
    + destruct (PerformActionOnElrond ex ctx b2) as [[e|] b3] eqn:Hp; simpl.
      * destruct (GetStoredActionID ex b3) as [a b3']. simpl.
        split_and!; try (intros; discriminate).
        -- eexists. by rewrite <- !app_assoc.
        -- intros ? ? [= <-]. by rewrite Hl.
        -- intros ? ? ? [= <-]. rewrite Hl. intros [= <-]. by rewrite Hp.
        -- intros ? ? ? ? [= <-]. rewrite Hl. intros [= <-]. rewrite Hp. intros _.
           split; [done|]. count_attempts.
      * split_and!; try (intros; discriminate).
        -- eexists. by rewrite <- !app_assoc.
        -- intros ? ? [= <-]. by rewrite Hl.
        -- intros ? ? ? [= <-]. rewrite Hl. intros [= <-]. rewrite Hp. intros [= <-].
           split_and!; [done..|]. count_attempts.
        -- intros ? ? ? ? [= <-]. rewrite Hl. intros [= <-]. by rewrite Hp.
    + split_and!; try (intros; discriminate).
      * eexists. by rewrite <- !app_assoc.
      * intros ? ? [= <-]. rewrite Hl. intros [= <-]. split; [done|].
        count_attempts.
      * intros ? ? ? [= <-]. by rewrite Hl.
      * intros ? ? ? ? [= <-]. by rewrite Hl.
  - destruct (GetStoredActionID ex b1) as [a b1']. simpl.
    split_and!; try (intros; discriminate).
    + eexists. by rewrite <- !app_assoc.
    + intros ? ? [= <- <-]. split; [done|]. count_attempts.
Qed.

(** The sign-proposed-transfer step: without a stored batch it goes to the
  fetch-pending step and signs nothing; with one it signs, and goes to
  waiting for quorum when signing succeeds and to the fetch-pending step when
  it fails. It does not ask first whether the transfer was signed. *)
Theorem signProposedTransferStep_Execute_cases (ex : Executor B) ctx (b : B) tr :
  let out := signProposedTransferStep_Execute GettingPendingBatchFromElrond
               WaitingForQuorumOnTransfer {| signBridge := ex |} ctx (b, tr) in
  (forall b1, GetStoredBatch ex b = (None, b1) ->
     out.1 = GettingPendingBatchFromElrond /\ out.2.1 = b1 /\
     CallSignTransferOnEthereum ∉ drop (length tr) out.2.2) /\
  (forall batch b1 b2 e, GetStoredBatch ex b = (Some batch, b1) ->
     SignTransferOnEthereum ex b1 = (Some e, b2) ->
     out.1 = GettingPendingBatchFromElrond /\ out.2.1 = b2) /\
  (forall batch b1 b2, GetStoredBatch ex b = (Some batch, b1) ->
     SignTransferOnEthereum ex b1 = (None, b2) ->
     out.1 = WaitingForQuorumOnTransfer /\ out.2.1 = b2 /\
     out.2.2 = tr ++ [CallGetStoredBatch; CallSignTransferOnEthereum]).
Proof.
  unfold signProposedTransferStep_Execute, bind, invoke, logLine, ret. simpl.
  destruct (GetStoredBatch ex b) as [[batch|] b1] eqn:Hb; simpl.
  - destruct (SignTransferOnEthereum ex b1) as [[e|] b2] eqn:Hs; simpl.
    + split_and!; [intros; discriminate| |].
      * intros ? ? ? ? [= <- <-]. rewrite Hs. by intros [= <- <-].
      * intros ? ? ? [= <- <-]. by rewrite Hs.
    + split_and!; [intros; discriminate| |].
      * intros ? ? ? ? [= <- <-]. by rewrite Hs.
      * intros ? ? ? [= <- <-]. rewrite Hs. intros [= <-].
        by rewrite <- app_assoc.
  - split_and!; [|intros; discriminate..].
    intros ? [= <-]. split_and!; [done..|].
    rewrite <- app_assoc, drop_app_length.
    intros Hin. repeat (apply elem_of_cons in Hin as [?|Hin]; [discriminate|]).
    by apply elem_of_nil in Hin.
Qed.

(** C5. [waitTransferConfirmationStep.Execute] does one thing with its
  executor, the wait for the confirmation, and returns exactly when the
  wait does; what it then returns is always the performing-transfer
  identifier, whatever the context or the state. With an executor whose
  wait ends once the context is cancelled, so does the step. *)
Theorem waitTransferConfirmationStep_Execute_advances (ex : Executor B) ctx (b : B) tr :
  let run := waitTransferConfirmationStep_Execute PerformingTransfer
               {| waitBridge := ex |} in
  (forall b', WaitForTransferConfirmation ex ctx b = Some b' ->
     run ctx (b, tr) =
       Some (PerformingTransfer, (b', tr ++ [CallWaitForTransferConfirmation]))) /\
  (WaitForTransferConfirmation ex ctx b = None -> run ctx (b, tr) = None) /\
  (forall next st', run ctx (b, tr) = Some (next, st') -> next = PerformingTransfer) /\
  ((forall b0, is_Some (WaitForTransferConfirmation ex {| done := true |} b0)) ->
     exists st', run {| done := true |} (b, tr) = Some (PerformingTransfer, st')).
Proof.
  unfold waitTransferConfirmationStep_Execute. simpl. split_and!.
  - by intros b' ->.
  - by intros ->.
  - intros next st'. destruct (WaitForTransferConfirmation ex ctx b); [|done].
    by intros [= <- _].
  - intros Hwait. destruct (Hwait b) as [b' ->]. eauto.
Qed.

End StepProperties.

(** *** The perform-set-status step on a small chain *)

(** The five cases of the step on the chain executor: the query fails; the
  action was performed; not performed and not leader; leader and the action
  succeeds; leader and the action fails. *)
Lemma performSetStatusStep_Execute_witness :
  let run c := (elrondToEth.performSetStatusStep_Execute "get pending" "perform"
                  {| elrondToEth.bridge := elrondToEth.chainExecutor |}
                  {| done := false |} (c, [])) in
  (run (elrondToEth.aChain (Err "rpc") true None)).1 = "get pending" /\
  (run (elrondToEth.aChain (Ok true) true None)).1 = "get pending" /\
  (run (elrondToEth.aChain (Ok false) false None)).1 = "perform" /\
  (run (elrondToEth.aChain (Ok false) true None)).1 = "perform" /\
  elrondToEth.performAttempts (run (elrondToEth.aChain (Ok false) true None)).2.2 = 1%nat /\
  (run (elrondToEth.aChain (Ok false) true (Some "failed"))).1 = "get pending".
Proof.
  intros run. split_and!.
  - destruct (performSetStatusStep_Execute_decides "get pending" "perform"
                elrondToEth.chainExecutor {| done := false |}
                (elrondToEth.aChain (Err "rpc") true None) []) as (_ & H & _).
    apply (H _ _ eq_refl).
  - destruct (performSetStatusStep_Execute_decides "get pending" "perform"
                elrondToEth.chainExecutor {| done := false |}
                (elrondToEth.aChain (Ok true) true None) []) as (_ & _ & H & _).
    apply (H _ eq_refl).
  - destruct (performSetStatusStep_Execute_decides "get pending" "perform"
                elrondToEth.chainExecutor {| done := false |}
                (elrondToEth.aChain (Ok false) false None) []) as (_ & _ & _ & H & _).
    apply (H _ _ eq_refl eq_refl).
  - destruct (performSetStatusStep_Execute_decides "get pending" "perform"
                elrondToEth.chainExecutor {| done := false |}
                (elrondToEth.aChain (Ok false) true None) []) as (_ & _ & _ & _ & H & _).
    apply (H _ _ _ eq_refl eq_refl eq_refl).
  - destruct (performSetStatusStep_Execute_decides "get pending" "perform"
                elrondToEth.chainExecutor {| done := false |}
                (elrondToEth.aChain (Ok false) true None) []) as (_ & _ & _ & _ & H & _).
    apply (H _ _ _ eq_refl eq_refl eq_refl).
  - destruct (performSetStatusStep_Execute_decides "get pending" "perform"
                elrondToEth.chainExecutor {| done := false |}
                (elrondToEth.aChain (Ok false) true (Some "failed")) [])
      as (_ & _ & _ & _ & _ & H).
    apply (H _ _ _ _ eq_refl eq_refl eq_refl).
Defined.

(** The sign-proposed-transfer step on the chain executor: no stored
  batch; a stored batch and signing fails; a stored batch and signing
  succeeds. *)
Lemma signProposedTransferStep_Execute_witness :
  let run c := (elrondToEth.signProposedTransferStep_Execute "get pending"
                  "waiting for quorum"
                  {| elrondToEth.signBridge := elrondToEth.chainExecutor |}
                  {| done := false |} (c, [])) in
  (run (elrondToEth.aChain (Ok false) false None)).1 = "get pending" /\
  (run (elrondToEth.aChainWithBatch (Some "no key"))).1 = "get pending" /\
  (run (elrondToEth.aChainWithBatch None)).1 = "waiting for quorum".
Proof.
  intros run.
  pose (thm c := signProposedTransferStep_Execute_cases "get pending"
                   "waiting for quorum" elrondToEth.chainExecutor
                   {| done := false |} c []).
  split_and!.
  - destruct (thm (elrondToEth.aChain (Ok false) false None)) as (H & _).
    apply (H _ eq_refl).
  - destruct (thm (elrondToEth.aChainWithBatch (Some "no key"))) as (_ & H & _).
    apply (H _ _ _ _ eq_refl eq_refl).
  - destruct (thm (elrondToEth.aChainWithBatch None)) as (_ & _ & H).
    apply (H _ _ _ eq_refl eq_refl).
Defined.


(** On the chain executor, whose wait ends on cancellation, the step under
  a cancelled context returns the performing-transfer identifier. *)
Lemma waitTransferConfirmationStep_Execute_witness :
  exists st',
    elrondToEth.waitTransferConfirmationStep_Execute "perform transfer"
      {| elrondToEth.waitBridge := elrondToEth.chainExecutor |} {| done := true |}
      (elrondToEth.aChain (Ok false) false None, []) = Some ("perform transfer", st').
Proof.
  apply (waitTransferConfirmationStep_Execute_advances "perform transfer"
           elrondToEth.chainExecutor {| done := false |}
           (elrondToEth.aChain (Ok false) false None) []).
  intros b0. simpl. rewrite orb_true_r. by eexists.
Defined.

(** ** The sign-proposed-set-status step *)
Section SignProposedSetStatusProperties.
Import steps.
Context {B : Type}.
Variables initialStep WaitingForQuorumOnSetStatus : StepIdentifier.
Variable InvalidActionID : Z.

Lemma signCalls_app (l1 l2 : list call) :
  signCalls (l1 ++ l2) = (signCalls l1 + signCalls l2)%nat.
Proof. unfold signCalls. by rewrite filter_app, length_app. Qed.

Lemma signCalls_one (c : call) :
  signCalls [c] = if decide (c = CallSignActionOnElrond) then 1%nat else 0%nat.
Proof. unfold signCalls. rewrite filter_cons. by case_decide. Qed.

Ltac count_signs :=
  rewrite ?signCalls_app, ?signCalls_one;
  repeat (case_decide; try discriminate; try congruence); lia.

Ltac same_state :=
  repeat match goal with
         | H1 : ?f = _, H2 : ?f = _ |- _ => rewrite H1 in H2; simplify_eq
         end.

Ltac settle_case :=
  intros;
  repeat match goal with
         | H : _ \/ _ |- _ => destruct H
         | H : exists _, _ |- _ => destruct H
         end;
  simplify_eq; same_state; try done;
  try (split; [done | count_signs]).

(** C4. The sign-proposed-set-status step: without a stored batch the next
  step is the initial one and nothing is signed; a failing action-id
  lookup, the invalid action id and a failing was-signed query lead to the
  initial step, nothing signed; an action already signed leads to waiting
  for quorum without a call to sign; an action not yet signed is signed
  with exactly one call, which leads to waiting for quorum when it succeeds
  and to the initial step when it fails. The error returned is always
  nil. *)
Theorem signProposedSetStatusStep_Execute_cases (ex : Executor B) ctx (b : B) tr :
  let out := signProposedSetStatusStep_Execute initialStep WaitingForQuorumOnSetStatus
               InvalidActionID {| bridge := ex |} ctx (b, tr) in
  let next := out.1.1 in
  let signed := (signCalls out.2.2 - signCalls tr)%nat in
  out.1.2 = None /\
  (forall b1, GetStoredBatch ex b = (None, b1) ->
     next = initialStep /\ signed = 0%nat) /\
  (forall batch b1 b2 r, GetStoredBatch ex b = (Some batch, b1) ->
     GetAndStoreActionIDForProposeSetStatusFromElrond ex ctx b1 = (r, b2) ->
     (exists e, r = Err e) \/ r = Ok InvalidActionID ->
     next = initialStep /\ signed = 0%nat) /\
  (forall batch b1 b2 id, GetStoredBatch ex b = (Some batch, b1) ->
     GetAndStoreActionIDForProposeSetStatusFromElrond ex ctx b1 = (Ok id, b2) ->
     id <> InvalidActionID ->
     (forall e b3, WasActionSignedOnElrond ex ctx b2 = (Err e, b3) ->
        next = initialStep /\ signed = 0%nat) /\
     (forall b3, WasActionSignedOnElrond ex ctx b2 = (Ok true, b3) ->
        next = WaitingForQuorumOnSetStatus /\ signed = 0%nat) /\
     (forall b3 b4, WasActionSignedOnElrond ex ctx b2 = (Ok false, b3) ->
        SignActionOnElrond ex ctx b3 = (None, b4) ->
        next = WaitingForQuorumOnSetStatus /\ signed = 1%nat) /\
     (forall b3 b4 e, WasActionSignedOnElrond ex ctx b2 = (Ok false, b3) ->
        SignActionOnElrond ex ctx b3 = (Some e, b4) ->
        next = initialStep /\ signed = 1%nat)).
Proof.
  unfold signProposedSetStatusStep_Execute, invoke. simpl.
  destruct (GetStoredBatch ex b) as [[batch|] b1] eqn:H1; simpl.
  2:{ split_and!; [done | settle_case..]. }
  destruct (GetAndStoreActionIDForProposeSetStatusFromElrond ex ctx b1)
    as [[id|e] b2] eqn:H2; simpl.
  2:{ split_and!; [done | settle_case..]. }
  destruct (Z.eqb_spec id InvalidActionID) as [->|Hne]; simpl.
  { split_and!; [done | settle_case..]. }
  destruct (WasActionSignedOnElrond ex ctx b2) as [[[|]|e] b3] eqn:H3; simpl.
  - split_and!; [done | settle_case..]. split_and!; settle_case.
  - destruct (SignActionOnElrond ex ctx b3) as [[e|] b4] eqn:H4; simpl.
    + split_and!; [done | settle_case..]. split_and!; settle_case.
    + split_and!; [done | settle_case..]. split_and!; settle_case.
  - split_and!; [done | settle_case..]. split_and!; settle_case.
Qed.

End SignProposedSetStatusProperties.

(** The scenarios of the test on its stub, with 0 as the invalid action id:
  nil batch; lookup error; invalid id; was-signed error; sign error; signed
  already; not yet signed. The state counts the calls to sign. *)
Lemma signProposedSetStatusStep_Execute_witness :
  let run ex := steps.signProposedSetStatusStep_Execute "initial" "waiting for quorum" 0
                  {| steps.bridge := ex |} {| done := false |} (0%nat, []) in
  let ok := Ok 662528 in
  let batch := Some steps.testBatch in
  (run (steps.stub None ok (Ok false) None)).1.1 = "initial" /\
  (run (steps.stub batch (Err "expected error") (Ok false) None)).1.1 = "initial" /\
  (run (steps.stub batch (Ok 0) (Ok false) None)).1.1 = "initial" /\
  (run (steps.stub batch ok (Err "expected error") None)).1.1 = "initial" /\
  (run (steps.stub batch ok (Ok false) (Some "expected error"))).1.1 = "initial" /\
  (run (steps.stub batch ok (Ok true) None)).1.1 = "waiting for quorum" /\
  (run (steps.stub batch ok (Ok false) None)).1.1 = "waiting for quorum".
Proof.
  intros run ok batch.
  pose (thm ex := signProposedSetStatusStep_Execute_cases "initial" "waiting for quorum" 0
                    ex {| done := false |} 0%nat []).
  split_and!.
  - destruct (thm (steps.stub None ok (Ok false) None)) as (_ & H & _).
    apply (H _ eq_refl).
  - destruct (thm (steps.stub batch (Err "expected error") (Ok false) None))
      as (_ & _ & H & _).
    apply (H _ _ _ _ eq_refl eq_refl). left. by eexists.
  - destruct (thm (steps.stub batch (Ok 0) (Ok false) None)) as (_ & _ & H & _).
    apply (H _ _ _ _ eq_refl eq_refl). by right.
  - destruct (thm (steps.stub batch ok (Err "expected error") None)) as (_ & _ & _ & H).
    destruct (H _ _ _ _ eq_refl eq_refl ltac:(done)) as (H' & _).
    apply (H' _ _ eq_refl).
  - destruct (thm (steps.stub batch ok (Ok false) (Some "expected error")))
      as (_ & _ & _ & H).
    destruct (H _ _ _ _ eq_refl eq_refl ltac:(done)) as (_ & _ & _ & H').
    apply (H' _ _ _ eq_refl eq_refl).
  - destruct (thm (steps.stub batch ok (Ok true) None)) as (_ & _ & _ & H).
    destruct (H _ _ _ _ eq_refl eq_refl ltac:(done)) as (_ & H' & _).
    apply (H' _ eq_refl).
  - destruct (thm (steps.stub batch ok (Ok false) None)) as (_ & _ & _ & H).
    destruct (H _ _ _ _ eq_refl eq_refl ltac:(done)) as (_ & _ & H' & _).
    apply (H' _ _ eq_refl eq_refl).
Defined.

(** ** The batch validator *)
Section ValidatorProperties.
Import batchValidatorManagement.
Context {Request : Type}.
Variable json_Marshal : option clients.BatchValue -> result goError (list byte).
Variable json_Unmarshal : list byte -> result goError microserviceResponse.
Variable http_NewRequestWithContext :
  requestContext -> string -> string -> list byte -> result goError Request.

Local Abbreviation validate :=
  (ValidateBatch json_Marshal json_Unmarshal http_NewRequestWithContext).

(** C6, as the code has it. [ValidateBatch] never looks at the status code:
  once a response has arrived and its body was read, the result is decided
  by decoding the body alone. A response that is not 2xx gives an error
  exactly when its body does not decode, and gives the decoded validity
  with a nil error otherwise. *)
Theorem ValidateBatch_ignores_status_code
    (bv : batchValidator Request) ctx batch body req resp bytes :
  json_Marshal batch = Ok body ->
  http_NewRequestWithContext {| parent := ctx; timeout := requestTime bv |}
    MethodPost (requestURL bv) body = Ok req ->
  Do (httpClient bv) req = Ok resp ->
  Body resp = Ok bytes ->
  validate bv ctx batch =
    match json_Unmarshal bytes with
    | Ok response => (Valid response, None)
    | Err err => (false, Some ("during unmarshal: " +:+ err))
    end.
Proof.
  intros Hm Hr Hd Hb.
  unfold ValidateBatch, doRequest, doRequestReturningBytes, ioutil_ReadAll.
  rewrite Hm. simpl. rewrite Hr, Hd, Hb. by destruct (json_Unmarshal bytes).
Qed.

(** C7. [ValidateBatch] returns false and an error when marshalling
  fails, when the request cannot be made or the client returns an error
  (a failed transport, or the deadline of the request context, which is the
  configured request time, has passed), when the body cannot be read, and
  when the body does not decode, the empty body included; when the body
  decodes to a valid answer it returns true and no error. *)
Theorem ValidateBatch_reports_errors (bv : batchValidator Request) ctx batch :
  let requestCtx := {| parent := ctx; timeout := requestTime bv |} in
  (forall e, json_Marshal batch = Err e ->
     validate bv ctx batch = (false, Some ("during marshal: " +:+ e))) /\
  (forall body e, json_Marshal batch = Ok body ->
     http_NewRequestWithContext requestCtx MethodPost (requestURL bv) body = Err e ->
     validate bv ctx batch = (false, Some ("executing request: " +:+ e))) /\
  (forall body req e, json_Marshal batch = Ok body ->
     http_NewRequestWithContext requestCtx MethodPost (requestURL bv) body = Ok req ->
     Do (httpClient bv) req = Err e ->
     validate bv ctx batch = (false, Some ("executing request: " +:+ e))) /\
  (forall body req resp, json_Marshal batch = Ok body ->
     http_NewRequestWithContext requestCtx MethodPost (requestURL bv) body = Ok req ->
     Do (httpClient bv) req = Ok resp ->
     (forall e, Body resp = Err e ->
        validate bv ctx batch = (false, Some ("executing request: " +:+ e))) /\
     (forall bytes e, Body resp = Ok bytes -> json_Unmarshal bytes = Err e ->
        validate bv ctx batch = (false, Some ("during unmarshal: " +:+ e))) /\
     (forall e, Body resp = Ok [] -> json_Unmarshal [] = Err e ->
        exists err, validate bv ctx batch = (false, Some err)) /\
     (Body resp = Ok validTrueBody -> StatusCode resp = 200 ->
        json_Unmarshal validTrueBody = Ok {| Valid := true |} ->
        validate bv ctx batch = (true, None))).
Proof.
  intros requestCtx.
  unfold ValidateBatch, doRequest, doRequestReturningBytes, ioutil_ReadAll.
  fold requestCtx. split_and!.
  - by intros e ->.
  - intros body e -> Hr. simpl. by rewrite Hr.
  - intros body req e -> Hr Hd. simpl. by rewrite Hr, Hd.
  - intros body req resp -> Hr Hd. simpl. rewrite Hr, Hd. split_and!.
    + by intros e ->.
    + by intros bytes e -> ->.
    + intros e -> ->. eauto.
    + by intros -> _ ->.
Qed.

End ValidatorProperties.

(** *** The validator against a server *)

(** A server answers 500 with the body [{"valid":true}], another 404 with
  [{"valid":false}]: the validator returns the decoded validity and a nil
  error, not an error. *)
Lemma ValidateBatch_non2xx_counterexample :
  let run client :=
    batchValidatorManagement.ValidateBatch batchValidatorManagement.encodeBatch
      batchValidatorManagement.decodeResponse batchValidatorManagement.newPlainRequest
      (batchValidatorManagement.validatorFor client) {| done := false |} None in
  batchValidatorManagement.is2xx 500 = false /\
  run (batchValidatorManagement.server 0 500 batchValidatorManagement.validTrueBody)
    = (true, None) /\
  batchValidatorManagement.is2xx 404 = false /\
  run (batchValidatorManagement.server 0 404 batchValidatorManagement.validFalseBody)
    = (false, None).
Proof. vm_compute. by split_and!. Qed.

(** The same validator and a server that answers 500: a body that does not
  decode gives the unmarshal error, a body that decodes gives its validity. *)
Lemma ValidateBatch_ignores_status_code_witness :
  let run client :=
    batchValidatorManagement.ValidateBatch batchValidatorManagement.encodeBatch
      batchValidatorManagement.decodeResponse batchValidatorManagement.newPlainRequest
      (batchValidatorManagement.validatorFor client) {| done := false |} None in
  run (batchValidatorManagement.server 0 500 batchValidatorManagement.malformedBody)
    = (false, Some "during unmarshal: invalid character in JSON input") /\
  run (batchValidatorManagement.server 0 500 batchValidatorManagement.validTrueBody)
    = (true, None).
Proof.
  intros run. split.
  - exact (ValidateBatch_ignores_status_code batchValidatorManagement.encodeBatch
             batchValidatorManagement.decodeResponse
             batchValidatorManagement.newPlainRequest
             (batchValidatorManagement.validatorFor
                (batchValidatorManagement.server 0 500
                   batchValidatorManagement.malformedBody))
             {| done := false |} None _ _ _ _ eq_refl eq_refl eq_refl eq_refl).
  - exact (ValidateBatch_ignores_status_code batchValidatorManagement.encodeBatch
             batchValidatorManagement.decodeResponse
             batchValidatorManagement.newPlainRequest
             (batchValidatorManagement.validatorFor
                (batchValidatorManagement.server 0 500
                   batchValidatorManagement.validTrueBody))
             {| done := false |} None _ _ _ _ eq_refl eq_refl eq_refl eq_refl).
Defined.

(** An encoder that fails; a transport that fails; a server slower than the
  second the validator allows; an empty body; a body that is no JSON; and
  the answer 200 [{"valid":true}]. *)
Lemma ValidateBatch_reports_errors_witness :
  let run encode client :=
    batchValidatorManagement.ValidateBatch encode
      batchValidatorManagement.decodeResponse batchValidatorManagement.newPlainRequest
      (batchValidatorManagement.validatorFor client) {| done := false |} None in
  let encode := batchValidatorManagement.encodeBatch in
  run batchValidatorManagement.encodeFails (batchValidatorManagement.server 0 200 [])
    = (false, Some "during marshal: json: unsupported type") /\
  run encode batchValidatorManagement.unreachable
    = (false, Some "executing request: connection refused") /\
  run encode (batchValidatorManagement.server 2000000000 200
                batchValidatorManagement.validTrueBody)
    = (false, Some "executing request: context deadline exceeded") /\
  (exists err, run encode (batchValidatorManagement.server 0 200 []) = (false, Some err)) /\
  run encode (batchValidatorManagement.server 0 200 batchValidatorManagement.malformedBody)
    = (false, Some "during unmarshal: invalid character in JSON input") /\
  run encode (batchValidatorManagement.server 0 200 batchValidatorManagement.validTrueBody)
    = (true, None).
Proof.
  intros run encode.
  pose (thm enc client :=
          ValidateBatch_reports_errors enc batchValidatorManagement.decodeResponse
            batchValidatorManagement.newPlainRequest
            (batchValidatorManagement.validatorFor client) {| done := false |} None).
  split_and!.
  - destruct (thm batchValidatorManagement.encodeFails
                (batchValidatorManagement.server 0 200 [])) as (H & _).
    apply (H _ eq_refl).
  - destruct (thm encode batchValidatorManagement.unreachable) as (_ & _ & H & _).
    apply (H _ _ _ eq_refl eq_refl eq_refl).
  - destruct (thm encode (batchValidatorManagement.server 2000000000 200
                            batchValidatorManagement.validTrueBody)) as (_ & _ & H & _).
    apply (H _ _ _ eq_refl eq_refl eq_refl).
  - destruct (thm encode (batchValidatorManagement.server 0 200 [])) as (_ & _ & _ & H).
    destruct (H _ _ _ eq_refl eq_refl eq_refl) as (_ & _ & H' & _).
    apply (H' _ eq_refl eq_refl).
  - destruct (thm encode (batchValidatorManagement.server 0 200
                            batchValidatorManagement.malformedBody)) as (_ & _ & _ & H).
    destruct (H _ _ _ eq_refl eq_refl eq_refl) as (_ & H' & _).
    apply (H' _ _ eq_refl eq_refl).
  - destruct (thm encode (batchValidatorManagement.server 0 200
                            batchValidatorManagement.validTrueBody)) as (_ & _ & _ & H).
    destruct (H _ _ _ eq_refl eq_refl eq_refl) as (_ & _ & _ & H').
    apply (H' eq_refl eq_refl eq_refl).
Defined.

(** ** The Ethereum client *)
Section ClientProperties.
Import ethereum.
Context {Env : Type}.
Variable range : gmap (list byte) Z -> list (list byte * Z).

Lemma contractCalls_app (l1 l2 : list call) :
  contractCalls (l1 ++ l2) = contractCalls l1 ++ contractCalls l2.
Proof.
  induction l1 as [|c l1 IH]; simpl; [done|].
  destruct c; simpl; by rewrite ?IH.
Qed.

(** Building the argument lists hands nothing to the contract. *)
Lemma extractListFrom_contractCalls (c : client Env) ctx ds arg st :
  contractCalls (extractListFrom c ctx ds arg st).2.2 = contractCalls st.2.
Proof.
  revert arg st. induction ds as [|dt ds IH]; intros arg [env tr]; simpl; [done|].
  unfold bind, invoke. simpl.
  destruct (ConvertToken (tokensMapper c) ctx (clients.tokenBytes dt) env)
    as [[erc20|e] env'] eqn:Hc; simpl.
  - destruct (clients.amount dt); simpl.
    + rewrite IH. simpl. by rewrite contractCalls_app, app_nil_r.
    + by rewrite contractCalls_app, app_nil_r.
  - by rewrite contractCalls_app, app_nil_r.
Qed.

(** Neither does checking the balances. *)
Lemma checkCumulatedTransfersFrom_contractCalls (c : client Env) ctx ts st :
  contractCalls (checkCumulatedTransfersFrom c ctx ts st).2.2 = contractCalls st.2.
Proof.
  revert st. induction ts as [|[erc20 value] ts IH]; intros [env tr]; simpl; [done|].
  unfold bind, invoke, logLine. simpl.
  destruct (BalanceOf (erc20ContractsHandler c) ctx erc20 (safeContractAddress c) env)
    as [[balance|e] env'] eqn:Hb; simpl.
  - destruct (balance <? value); simpl.
    + by rewrite contractCalls_app, app_nil_r.
    + rewrite IH. simpl. by rewrite !contractCalls_app, !app_nil_r.
  - by rewrite contractCalls_app, app_nil_r.
Qed.

Lemma checkAvailableTokens_contractCalls (c : client Env) ctx toks amts st :
  contractCalls (checkAvailableTokens range c ctx toks amts st).2.2 = contractCalls st.2.
Proof.
  unfold checkAvailableTokens, checkCumulatedTransfers.
  destruct (getCumulatedTransfers toks amts); [|done].
  apply checkCumulatedTransfersFrom_contractCalls.
Qed.

(** C10, as the code has it. Once the nonce, the chain id, the transactor
  and the gas price were obtained without error, [ExecuteTransfer] on a
  non-nil batch asks the signature holder. With fewer signatures than the
  quorum it returns the empty hash and the quorum-not-reached error, and
  the contract is not called. With at least as many, for a quorum that is
  not negative, the only signature set that can reach the contract is the
  first [quorum] of them, in one call at most, and in exactly one call when
  [ExecuteTransfer] returns without error. *)
Theorem ExecuteTransfer_quorum (c : client Env) ctx msgHash b quorum env tr
    blockNonce env1 nonce env2 chainId env3 auth0 gasPrice env4 sigs env5 :
  BlockNumber (clientWrapper c) ctx env = (Ok blockNonce, env1) ->
  NonceAt (clientWrapper c) ctx (relayerAddress c) (toInt64 blockNonce) env1
    = ((nonce, None), env2) ->
  ChainID (clientWrapper c) ctx env2 = (Ok chainId, env3) ->
  newKeyedTransactor c chainId = Ok auth0 ->
  GetCurrentGasPrice (gasHandler c) env3 = (Ok gasPrice, env4) ->
  Signatures (signatureHolder c) msgHash env4 = (sigs, env5) ->
  let out := ExecuteTransfer range c ctx msgHash (Some b) quorum (env, tr) in
  (Z.of_nat (length sigs) < quorum ->
     out.1 = Returned ("", Some (errQuorumNotReached (Z.of_nat (length sigs)) quorum)) /\
     contractCalls out.2.2 = contractCalls tr) /\
  (0 <= quorum <= Z.of_nat (length sigs) ->
     (contractCalls out.2.2 = contractCalls tr \/
      contractCalls out.2.2 = contractCalls tr ++ [take (Z.to_nat quorum) sigs]) /\
     (forall txHash, out.1 = Returned (txHash, None) ->
        contractCalls out.2.2 = contractCalls tr ++ [take (Z.to_nat quorum) sigs])).
Proof.
  intros Hbn Hna Hch Hkt Hgp Hsig out.
  unfold out, ExecuteTransfer, getNonce, bind, invoke, logLine, ret. simpl.
  rewrite Hbn. simpl. rewrite Hna. simpl. rewrite Hch. simpl. rewrite Hkt. simpl.
  rewrite Hgp. simpl. rewrite Hsig. simpl.
  split.
  - intros Hlt. apply Z.ltb_lt in Hlt. rewrite Hlt. simpl.
    split; [done|]. by rewrite !contractCalls_app, !app_nil_r.
  - intros [Hq0 Hq].
    assert ((Z.of_nat (length sigs) <? quorum) = false) as -> by lia.
    set (st0 := (env5, ((((((tr ++ [CallLog state.LogInfo "executing transfer"]) ++
                  [CallBlockNumber]) ++
                  [CallNonceAt (relayerAddress c) (toInt64 blockNonce)]) ++
                  [CallChainID]) ++ [CallGetCurrentGasPrice]) ++
                  [CallSignatures msgHash]))).
    assert (contractCalls st0.2 = contractCalls tr) as Hst0.
    { unfold st0. simpl. by rewrite !contractCalls_app, !app_nil_r. }
    assert (exists st1,
              (if quorum <? Z.of_nat (length sigs)
               then bind (logLine state.LogDebug "reducing the size of the signatures set")
                      (fun _ => sliceTo sigs quorum)
               else ret sigs) st0 = (Returned (take (Z.to_nat quorum) sigs), st1) /\
              contractCalls st1.2 = contractCalls tr) as (st1 & Hs1 & Hst1).
    { destruct (Z.ltb_spec quorum (Z.of_nat (length sigs))).
      - unfold bind, logLine, sliceTo, ret. simpl.
        assert ((quorum <? 0) = false) as -> by lia.
        eexists. split; [done|]. unfold st0. simpl.
        by rewrite !contractCalls_app, !app_nil_r.
      - unfold ret. exists st0. split; [|done].
        rewrite take_ge; [done|lia]. }
    fold st0. unfold bind, logLine, ret in Hs1. unfold ret. rewrite Hs1.
    pose proof (extractListFrom_contractCalls c ctx (clients.depositValues b)
                  {| tokens := []; recipients := []; amounts := []; nonces := [] |} st1)
      as Hex.
    unfold extractList.
    destruct (extractListFrom c ctx (clients.depositValues b) _ st1)
      as [[[argLists|e]|] st2]; simpl in *.
    2,3: split; [left; congruence | intros; discriminate].
    pose proof (checkAvailableTokens_contractCalls c ctx (tokens argLists)
                  (amounts argLists) st2) as Hck.
    destruct (checkAvailableTokens range c ctx (tokens argLists) (amounts argLists) st2)
      as [[[e|]|] st3]; simpl in *.
    1,3: split; [left; congruence | intros; discriminate].
    destruct (ExecuteTransfer_contract (clientWrapper c) _ argLists (clients.id b)
                (take (Z.to_nat quorum) sigs) st3.1) as [[txHash|e] env6]; simpl.
    + rewrite !contractCalls_app. simpl. rewrite app_nil_r.
      split; [right|intros ? _]; congruence.
    + rewrite !contractCalls_app. simpl.
      split; [right; congruence | intros; discriminate].
Qed.

End ClientProperties.

(** *** The client over stub collaborators *)

(** The holder has no signature and the quorum is 1, but the block number
  query fails: the error returned is that of [getNonce], not the
  quorum-not-reached error. *)
Lemma ExecuteTransfer_quorum_counterexample :
  let c := ethereum.stubClient (Err "rpc down") [] in
  let out := ethereum.ExecuteTransfer map_to_list c {| done := false |} []
               (Some ethereum.batch7) 1 (tt, []) in
  ethereum.Signatures (ethereum.signatureHolder c) [] tt = ([], tt) /\
  out.1 = Returned ("", Some (ethereum.errInGetNonce "rpc down")) /\
  out.1 <> Returned ("", Some (ethereum.errQuorumNotReached 0 1)).
Proof. vm_compute. split_and!; [done..|]. discriminate. Qed.

(** The holder has three signatures. With quorum 4 the call fails with the
  quorum-not-reached error and the contract is not called; with quorum 2
  the contract is called once, with the first two. *)
Lemma ExecuteTransfer_quorum_witness :
  let c := ethereum.stubClient (Ok 5) ethereum.threeSignatures in
  let run q := ethereum.ExecuteTransfer map_to_list c {| done := false |} []
                 (Some ethereum.batch7) q (tt, []) in
  ((run 4).1 = Returned ("", Some (ethereum.errQuorumNotReached 3 4)) /\
   ethereum.contractCalls (run 4).2.2 = []) /\
  (run 2).1 = Returned ("0xabc", None) /\
  ethereum.contractCalls (run 2).2.2 = [[[x01]; [x02]]].
Proof.
  intros c run.
  pose (thm q := ExecuteTransfer_quorum map_to_list c {| done := false |} []
                   ethereum.batch7 q tt [] 5 tt 7 tt (Some 1) tt ethereum.stubAuth 50 tt
                   ethereum.threeSignatures tt
                   eq_refl eq_refl eq_refl eq_refl eq_refl eq_refl).
  split_and!.
  - apply (proj1 (thm 4)). simpl. lia.
  - apply (proj1 (thm 4)). simpl. lia.
  - reflexivity.
  - destruct (proj2 (thm 2)) as (_ & H); [simpl; lia|].
    apply (H "0xabc"%string). reflexivity.
Defined.

(** ** The transfer batch *)
Section CloneProperties.
Import clients.

Implicit Types (h : heap) (s : option slice) (p : option positive).

Lemma extends_refl h : extends h h.
Proof. by unfold extends. Qed.

Lemma extends_trans h1 h2 h3 : extends h1 h2 -> extends h2 h3 -> extends h1 h3.
Proof.
  intros (A1 & A2 & A3 & A4 & A5) (B1 & B2 & B3 & B4 & B5).
  unfold extends. split_and!; by etrans.
Qed.

(** Reading is stable under heap extension. *)
Lemma readBytes_extends h h' s v :
  byteArrays h ⊆ byteArrays h' -> readBytes h s = Some v -> readBytes h' s = Some v.
Proof.
  intros Hsub. destruct s as [hdr|]; simpl; [|done].
  destruct (byteArrays h !! arr hdr) as [a|] eqn:Ha; simpl; [|done].
  by rewrite (lookup_weaken _ _ _ _ Ha Hsub).
Qed.

Lemma readAmount_extends h h' a v :
  bigInts h ⊆ bigInts h' -> readAmount h a = Some v -> readAmount h' a = Some v.
Proof.
  intros Hsub. destruct a as [l|]; simpl; [|done].
  destruct (bigInts h !! l) as [z|] eqn:Hz; simpl; [|done].
  by rewrite (lookup_weaken _ _ _ _ Hz Hsub).
Qed.

Lemma readPointers_extends h h' s v :
  pointerArrays h ⊆ pointerArrays h' -> readPointers h s = Some v ->
  readPointers h' s = Some v.
Proof.
  intros Hsub. destruct s as [hdr|]; simpl; [|done].
  destruct (pointerArrays h !! arr hdr) as [a|] eqn:Ha; simpl; [|done].
  by rewrite (lookup_weaken _ _ _ _ Ha Hsub).
Qed.

Lemma depositValue_extends h h' p v :
  extends h h' -> depositValue h p = Some v -> depositValue h' p = Some v.
Proof.
  intros (HB & HI & HD & _ & _). unfold depositValue.
  destruct p as [l|]; simpl; [|done].
  destruct (deposits h !! l) as [d|] eqn:Hd; simpl; [|done].
  rewrite (lookup_weaken _ _ _ _ Hd HD). simpl.
  destruct (readBytes h (ToBytes d)) as [to|] eqn:E1; simpl; [|done].
  destruct (readBytes h (FromBytes d)) as [from|] eqn:E2; simpl; [|done].
  destruct (readBytes h (TokenBytes d)) as [token|] eqn:E3; simpl; [|done].
  destruct (readAmount h (Amount d)) as [a|] eqn:E4; simpl; [|done].
  rewrite (readBytes_extends _ _ _ _ HB E1), (readBytes_extends _ _ _ _ HB E2),
    (readBytes_extends _ _ _ _ HB E3), (readAmount_extends _ _ _ _ HI E4). done.
Qed.

Lemma depositValues_extends h h' ps vs :
  extends h h' -> mapM (depositValue h) ps = Some vs ->
  mapM (depositValue h') ps = Some vs.
Proof.
  intros Hext. rewrite !mapM_Some. intros H.
  eapply Forall2_impl; [exact H|]. intros p v. by apply depositValue_extends.
Qed.

Lemma batchValue_extends h h' p v :
  extends h h' -> batchValue h p = Some v -> batchValue h' p = Some v.
Proof.
  intros Hext. pose proof Hext as (_ & _ & _ & HP & HT). unfold batchValue.
  destruct p as [l|]; simpl; [|done].
  destruct (batches h !! l) as [b|] eqn:Hb; simpl; [|done].
  rewrite (lookup_weaken _ _ _ _ Hb HT). simpl.
  destruct (readPointers h (Deposits b)) as [ps|] eqn:E1; simpl; [|done].
  rewrite (readPointers_extends _ _ _ _ HP E1). simpl.
  destruct (mapM (depositValue h) ps) as [vs|] eqn:E2; simpl; [|done].
  by rewrite (depositValues_extends _ _ _ _ Hext E2).
Qed.

Lemma fresh_lookup {A} (m : gmap positive A) : m !! fresh (dom m) = None.
Proof. apply not_elem_of_dom, is_fresh. Qed.

Lemma readBytes_length h s v : readBytes h s = Some v -> length v = sliceLen s.
Proof.
  destruct s as [hdr|]; simpl; [|by intros [= <-]].
  destruct (byteArrays h !! arr hdr) as [a|]; simpl; [|done].
  destruct (Nat.leb_spec (off hdr + len hdr) (length a)); [|done].
  intros [= <-]. rewrite length_take, length_drop. lia.
Qed.

(** [copy] into a fresh zeroed array of the length of the source leaves the
  content of the source there. *)
Lemma copyBytes_into_fresh h0 h l src v :
  byteArrays h0 ⊆ byteArrays h ->
  byteArrays h0 !! l = None ->
  byteArrays h !! l = Some (replicate (sliceLen src) x00) ->
  readBytes h0 src = Some v ->
  copyBytes (Some {| arr := l; off := 0; len := sliceLen src; cap := sliceLen src |}) src h
    = Some (withByteArrays h (<[l := v]> (byteArrays h))).
Proof.
  intros Hsub Hl Hz Hr. unfold copyBytes. destruct src as [s|]; simpl in *.
  - destruct (byteArrays h0 !! arr s) as [sa|] eqn:Hsa; simpl in *; [|done].
    rewrite (lookup_weaken _ _ _ _ Hsa Hsub). simpl. rewrite Hz. simpl.
    destruct (Nat.leb_spec (off s + len s) (length sa)); [|done].
    injection Hr as <-.
    rewrite Nat.min_id, length_replicate.
    destruct (Nat.leb_spec (off s + len s) (length sa)); [|lia].
    destruct (Nat.leb_spec (len s) (len s)); [|lia]. simpl.
    rewrite drop_replicate, Nat.sub_diag. simpl. by rewrite app_nil_r.
  - injection Hr as <-. f_equal. destruct h. unfold withByteArrays. simpl in *.
    f_equal. by rewrite insert_id.
Qed.

Lemma readBytes_whole h l v n :
  byteArrays h !! l = Some v -> length v = n ->
  readBytes h (Some {| arr := l; off := 0; len := n; cap := n |}) = Some v.
Proof.
  intros Hl Hn. simpl. rewrite Hl. simpl.
  destruct (Nat.leb_spec n (length v)); [|lia].
  by rewrite drop_0, take_ge by lia.
Qed.

(** [DepositTransfer.Clone] on a readable deposit returns; it leaves the
  heap it found as it was, and the clone holds the same values (a zero for a
  nil amount) behind references that are all new. *)
Lemma DepositTransfer_Clone_spec h p v :
  depositValue h p = Some v ->
  exists c h' d',
    DepositTransfer_Clone p h = Some (c, h') /\
    extends h h' /\
    pointerArrays h' = pointerArrays h /\ batches h' = batches h /\
    deposits h !! c = None /\ deposits h' !! c = Some d' /\
    freshRefs h d' /\
    depositValue h' (Some c) = Some (clonedDeposit v).
Proof.
  intros Hv. unfold depositValue in Hv. destruct p as [l|]; simpl in Hv; [|done].
  destruct (deposits h !! l) as [d|] eqn:Hd; simpl in Hv; [|done].
  destruct (readBytes h (ToBytes d)) as [v1|] eqn:E1; simpl in Hv; [|done].
  destruct (readBytes h (FromBytes d)) as [v2|] eqn:E2; simpl in Hv; [|done].
  destruct (readBytes h (TokenBytes d)) as [v3|] eqn:E3; simpl in Hv; [|done].
  destruct (readAmount h (Amount d)) as [va|] eqn:E4; simpl in Hv; [|done].
  injection Hv as <-.
  unfold DepositTransfer_Clone. cbn [mbind option_bind]. rewrite Hd.
  unfold makeBytes, NewInt, newDeposit. cbn -[copyBytes bigSet].
  set (B0 := byteArrays h).
  set (l1 := fresh (dom B0)).
  set (B1 := <[l1 := replicate (sliceLen (ToBytes d)) x00]> B0).
  set (l2 := fresh (dom B1)).
  set (B2 := <[l2 := replicate (sliceLen (FromBytes d)) x00]> B1).
  set (l3 := fresh (dom B2)).
  set (B3 := <[l3 := replicate (sliceLen (TokenBytes d)) x00]> B2).
  set (a := fresh (dom (bigInts h))).
  set (c := fresh (dom (deposits h))).
  assert (B0 !! l1 = None) as N1 by apply fresh_lookup.
  assert (B1 !! l2 = None) as N2 by apply fresh_lookup.
  assert (B2 !! l3 = None) as N3 by apply fresh_lookup.
  assert (bigInts h !! a = None) as Na by apply fresh_lookup.
  assert (deposits h !! c = None) as Nc by apply fresh_lookup.
  apply lookup_insert_None in N2 as [N2 D21].
  apply lookup_insert_None in N3 as [N3 D32].
  apply lookup_insert_None in N3 as [N3 D31].
  set (d' := {| Nonce := Nonce d;
                ToBytes := Some {| arr := l1; off := 0; len := sliceLen (ToBytes d);
                                   cap := sliceLen (ToBytes d) |};
                DisplayableTo := DisplayableTo d;
                FromBytes := Some {| arr := l2; off := 0; len := sliceLen (FromBytes d);
                                     cap := sliceLen (FromBytes d) |};
                DisplayableFrom := DisplayableFrom d;
                TokenBytes := Some {| arr := l3; off := 0; len := sliceLen (TokenBytes d);
                                      cap := sliceLen (TokenBytes d) |};
                DisplayableToken := DisplayableToken d;
                Amount := Some a |}).
  set (h5 := withDeposits _ _).
  assert (B0 ⊆ B3) as S3.
  { unfold B3, B2, B1. by repeat apply insert_subseteq_r. }
  rewrite (copyBytes_into_fresh h h5 l1 (ToBytes d) v1); [|done|done| |done].
  2:{ unfold h5. simpl. unfold B3, B2, B1. by simplify_map_eq. }
  cbn [mbind option_bind].
  set (h6 := withByteArrays h5 _).
  rewrite (copyBytes_into_fresh h h6 l2 (FromBytes d) v2); [| |done| |done].
  2:{ unfold h6, h5. simpl. by apply insert_subseteq_r. }
  2:{ unfold h6, h5. simpl. unfold B3, B2, B1. by simplify_map_eq. }
  cbn [mbind option_bind].
  set (h7 := withByteArrays h6 _).
  rewrite (copyBytes_into_fresh h h7 l3 (TokenBytes d) v3); [| |done| |done].
  2:{ unfold h7, h6, h5. simpl. by repeat apply insert_subseteq_r. }
  2:{ unfold h7, h6, h5. simpl. unfold B3, B2, B1. by simplify_map_eq. }
  cbn [mbind option_bind].
  set (h8 := withByteArrays h7 _).
  assert (exists h9, match Amount d with
                     | Some a0 => bigSet (Some a) (Some a0) h8
                     | None => Some h8
                     end = Some h9 /\
                     byteArrays h9 = byteArrays h8 /\ deposits h9 = deposits h8 /\
                     pointerArrays h9 = pointerArrays h8 /\ batches h9 = batches h8 /\
                     bigInts h9 = <[a := default 0 va]> (bigInts h))
    as (h9 & -> & F1 & F2 & F3 & F4 & F5).
  { destruct (Amount d) as [a0|] eqn:Ea; simpl in E4.
    - destruct (bigInts h !! a0) as [z|] eqn:Ez; simpl in E4; [|done].
      injection E4 as <-.
      assert (a0 <> a) as Hne by congruence.
      unfold bigSet. simpl. rewrite lookup_insert_eq. simpl.
      rewrite lookup_insert_ne by done. rewrite Ez. simpl.
      eexists. split; [done|]. simpl. split_and!; try done.
      by rewrite insert_insert_eq.
    - injection E4 as <-. exists h8. by split_and!. }
  simpl.
  exists c, h9, d'. split_and!.
  - done.
  - unfold extends. rewrite F1, F2, F3, F4, F5. simpl. split_and!; try done.
    + by repeat apply insert_subseteq_r.
    + by apply insert_subseteq.
    + by apply insert_subseteq.
  - by rewrite F3.
  - by rewrite F4.
  - done.
  - rewrite F2. simpl. apply lookup_insert_eq.
  - unfold freshRefs, d'. simpl. split_and!; eauto.
  - assert (byteArrays h9 !! l1 = Some v1) as L1.
    { rewrite F1. simpl. by simplify_map_eq. }
    assert (byteArrays h9 !! l2 = Some v2) as L2.
    { rewrite F1. simpl. by simplify_map_eq. }
    assert (byteArrays h9 !! l3 = Some v3) as L3.
    { rewrite F1. simpl. by simplify_map_eq. }
    pose proof (readBytes_whole h9 l1 v1 _ L1 (readBytes_length h _ _ E1)) as R1.
    pose proof (readBytes_whole h9 l2 v2 _ L2 (readBytes_length h _ _ E2)) as R2.
    pose proof (readBytes_whole h9 l3 v3 _ L3 (readBytes_length h _ _ E3)) as R3.
    unfold depositValue. cbn [mbind option_bind]. rewrite F2.
    cbn [deposits h8 h7 h6 h5 withByteArrays withDeposits]. rewrite lookup_insert_eq.
    change (readBytes h9 (ToBytes d') = Some v1) in R1.
    change (readBytes h9 (FromBytes d') = Some v2) in R2.
    change (readBytes h9 (TokenBytes d') = Some v3) in R3.
    cbn [mbind option_bind]. rewrite R1, R2, R3.
    change (Amount d') with (Some a). unfold readAmount.
    rewrite F5, lookup_insert_eq. done.
Qed.

Lemma depositValue_mono h h' p v :
  byteArrays h ⊆ byteArrays h' -> bigInts h ⊆ bigInts h' -> deposits h ⊆ deposits h' ->
  depositValue h p = Some v -> depositValue h' p = Some v.
Proof.
  intros HB HI HD. unfold depositValue.
  destruct p as [l|]; simpl; [|done].
  destruct (deposits h !! l) as [d|] eqn:Hd; simpl; [|done].
  rewrite (lookup_weaken _ _ _ _ Hd HD). simpl.
  destruct (readBytes h (ToBytes d)) as [to|] eqn:E1; simpl; [|done].
  destruct (readBytes h (FromBytes d)) as [from|] eqn:E2; simpl; [|done].
  destruct (readBytes h (TokenBytes d)) as [token|] eqn:E3; simpl; [|done].
  destruct (readAmount h (Amount d)) as [a|] eqn:E4; simpl; [|done].
  rewrite (readBytes_extends _ _ _ _ HB E1), (readBytes_extends _ _ _ _ HB E2),
    (readBytes_extends _ _ _ _ HB E3), (readAmount_extends _ _ _ _ HI E4). done.
Qed.

Lemma readPointers_length h s ps : readPointers h s = Some ps -> length ps = sliceLen s.
Proof.
  destruct s as [hdr|]; simpl; [|by intros [= <-]].
  destruct (pointerArrays h !! arr hdr) as [a|]; simpl; [|done].
  destruct (Nat.leb_spec (off hdr + len hdr) (length a)); [|done].
  intros [= <-]. rewrite length_take, length_drop. lia.
Qed.

(** Indexing the source slice in a heap that extends the one it was read in. *)
Lemma indexPointers_extends h0 h s ps i q :
  pointerArrays h0 ⊆ pointerArrays h ->
  readPointers h0 s = Some ps -> ps !! i = Some q ->
  indexPointers s i h = Some q.
Proof.
  intros Hsub Hr Hi. destruct s as [hdr|]; simpl in *.
  - destruct (pointerArrays h0 !! arr hdr) as [a|] eqn:Ha; simpl in Hr; [|done].
    destruct (Nat.leb_spec (off hdr + len hdr) (length a)); [|done].
    injection Hr as <-. unfold indexPointers. simpl.
    rewrite (lookup_weaken _ _ _ _ Ha Hsub). simpl.
    apply lookup_take_Some in Hi as [Hi Hlt].
    rewrite lookup_drop in Hi.
    destruct (Nat.ltb_spec i (len hdr)); [done|lia].
  - injection Hr as <-. done.
Qed.

Lemma freshRefs_weaken h0 h d :
  byteArrays h0 ⊆ byteArrays h -> bigInts h0 ⊆ bigInts h ->
  freshRefs h d -> freshRefs h0 d.
Proof.
  intros HB HI ((t & ? & Ht) & (f & ? & Hf) & (k & ? & Hk) & (a & ? & Ha)).
  unfold freshRefs. split_and!; eexists; (split; [done|]).
  - by eapply lookup_weaken_None.
  - by eapply lookup_weaken_None.
  - by eapply lookup_weaken_None.
  - by eapply lookup_weaken_None.
Qed.

(** The loop of [TransferBatch.Clone]: with [i] deposits cloned into the
  first [i] places of the new array, the remaining [n] follow, and no
  append reallocates. *)
Lemma cloneDeposits_spec h0 src ps vs cloned pa idb N :
  readPointers h0 src = Some ps ->
  mapM (depositValue h0) ps = Some vs ->
  length ps = N ->
  pointerArrays h0 !! pa = None ->
  batches h0 !! cloned = None ->
  forall n i hc cs,
    (i + n = N)%nat ->
    extends h0 hc ->
    batches hc !! cloned =
      Some {| ID := idb; Deposits := Some {| arr := pa; off := 0; len := i; cap := N |} |} ->
    pointerArrays hc !! pa = Some ((Some <$> cs) ++ replicate n None) ->
    length cs = i ->
    mapM (depositValue hc) (Some <$> cs) = Some (clonedDeposit <$> take i vs) ->
    Forall (λ c, exists d', deposits hc !! c = Some d' /\ freshRefs h0 d') cs ->
    exists h' cs',
      cloneDeposits src i n cloned hc = Some h' /\
      extends h0 h' /\
      batches h' !! cloned =
        Some {| ID := idb; Deposits := Some {| arr := pa; off := 0; len := N; cap := N |} |} /\
      pointerArrays h' !! pa = Some (Some <$> cs') /\
      length cs' = N /\
      mapM (depositValue h') (Some <$> cs') = Some (clonedDeposit <$> vs) /\
      Forall (λ c, exists d', deposits h' !! c = Some d' /\ freshRefs h0 d') cs'.
Proof.
  intros Hps Hvs HN Hpa Hcl.
  assert (length vs = N) as HNv.
  { apply length_mapM in Hvs. lia. }
  induction n as [|n IH]; intros i hc cs Hin Hext Hb Hp Hlen Hm Hfresh.
  - assert (i = N) as -> by lia. simpl.
    exists hc, cs. rewrite app_nil_r in Hp. rewrite take_ge in Hm by lia.
    by split_and!.
  - assert (i < length ps)%nat as Hi by lia.
    destruct (lookup_lt_is_Some_2 ps i Hi) as [q Hq].
    pose proof Hext as (EB & EI & ED & EP & ET).
    pose proof (proj1 (mapM_Some _ _ _) Hvs) as F2.
    destruct (Forall2_lookup_l _ _ _ _ _ F2 Hq) as (vi & Hvi & Hdv).
    pose proof (depositValue_mono _ _ _ _ EB EI ED Hdv) as Hdv'.
    destruct (DepositTransfer_Clone_spec hc q vi Hdv')
      as (c & h1 & d' & Hclone & Hext1 & HP1 & HT1 & Hc0 & Hc1 & Hfr & Hcv).
    pose proof Hext1 as (EB1 & EI1 & ED1 & _ & _).
    cbn [cloneDeposits mbind option_bind].
    rewrite (indexPointers_extends h0 hc src ps i q EP Hps Hq).
    cbn [mbind option_bind]. rewrite Hclone. cbn [mbind option_bind].
    rewrite HT1, Hb. cbn [mbind option_bind Deposits ID].
    unfold appendPointer. cbn [arr off len cap]. rewrite HP1, Hp.
    cbn [mbind option_bind].
    destruct (Nat.ltb_spec i N); [|lia].
    rewrite length_app, length_fmap, length_replicate, Hlen.
    destruct (Nat.ltb_spec (0 + i) (i + S n)); [|lia].
    cbn [mbind option_bind].
    set (hc' := withBatches _ _).
    assert (<[(0 + i)%nat := Some c]> ((Some <$> cs) ++ replicate (S n) None)
            = (Some <$> (cs ++ [c])) ++ replicate n (@None positive)) as Harr.
    { rewrite Nat.add_0_l. rewrite insert_app_r_alt by (rewrite length_fmap; lia).
      rewrite length_fmap, Hlen, Nat.sub_diag. simpl.
      by rewrite fmap_app, <- app_assoc. }
    destruct (IH (S i) hc' (cs ++ [c])) as (h' & cs' & R); try lia.
    + unfold hc', extends. simpl. rewrite ?HP1, ?HT1. split_and!.
      * by etrans.
      * by etrans.
      * by etrans.
      * by apply insert_subseteq_r.
      * by apply insert_subseteq_r.
    + unfold hc'. simpl. by rewrite lookup_insert_eq.
    + unfold hc'. cbn [pointerArrays withBatches withPointerArrays].
      by rewrite lookup_insert_eq, Harr.
    + rewrite length_app. simpl. lia.
    + rewrite (take_S_r _ _ _ Hvi), !fmap_app. simpl.
      apply mapM_Some. apply Forall2_app.
      * apply mapM_Some in Hm. eapply Forall2_impl; [exact Hm|].
        intros p v. unfold hc'. simpl. by apply depositValue_mono.
      * constructor; [|constructor]. unfold hc'. revert Hcv.
        apply depositValue_mono; done.
    + apply Forall_app. split.
      * eapply Forall_impl; [exact Hfresh|]. intros c0 (d0 & Hd0 & Hf0).
        exists d0. split; [|done]. unfold hc'. simpl.
        by eapply lookup_weaken.
      * constructor; [|constructor]. exists d'. split; [done|].
        eapply freshRefs_weaken; [exact EB|exact EI|done].
    + exists h', cs'. done.
Qed.

Lemma clonedBatch_same v :
  Forall (λ d, is_Some (amount d)) (depositValues v) -> clonedBatch v = v.
Proof.
  destruct v as [i ds]. unfold clonedBatch. simpl. intros H. f_equal.
  induction H as [|d ds [a Ha] _ IH]; [done|].
  rewrite fmap_cons, IH. f_equal. destruct d. simpl in *. unfold clonedDeposit. simpl.
  by rewrite Ha.
Qed.

Lemma batchDeposits_fresh h0 h cs :
  Forall (λ c, exists d', deposits h !! c = Some d' /\ freshRefs h0 d') cs ->
  exists ds, mapM (λ q : option positive, q ≫= (deposits h !!.)) (Some <$> cs) = Some ds /\
    length ds = length cs /\ Forall (freshRefs h0) ds.
Proof.
  induction 1 as [|c cs (d' & Hd & Hf) _ (ds & Hm & Hl & HF)].
  - exists []. by split_and!.
  - exists (d' :: ds). split_and!; [|simpl; by rewrite Hl|by constructor].
    apply mapM_Some. constructor; [done|]. by apply mapM_Some.
Qed.

(** Writing through a reference that points outside [h0] keeps every
  extension of [h0] an extension. *)
Lemma setByte_extends h0 h s i x h'' :
  extends h0 h ->
  (exists hdr, s = Some hdr /\ byteArrays h0 !! arr hdr = None) ->
  setByte s i x h = Some h'' -> extends h0 h''.
Proof.
  intros (EB & EI & ED & EP & ET) (hdr & -> & Hfresh). unfold setByte. simpl.
  destruct (byteArrays h !! arr hdr) as [a|]; simpl; [|done].
  destruct (_ && _); [|done]. intros [= <-].
  unfold extends. simpl. split_and!; try done. by apply insert_subseteq_r.
Qed.

Lemma SetInt64_extends h0 h a z h'' :
  extends h0 h ->
  (exists l, a = Some l /\ bigInts h0 !! l = None) ->
  SetInt64 a z h = Some h'' -> extends h0 h''.
Proof.
  intros (EB & EI & ED & EP & ET) (l & -> & Hfresh). unfold SetInt64. simpl.
  destruct (bigInts h !! l) as [z0|]; simpl; [|done]. intros [= <-].
  unfold extends. simpl. split_and!; try done. by apply insert_subseteq_r.
Qed.

(** C8, as the code has it. On a batch that can be read (the batch and its
  deposits are not nil), [Clone] returns a new batch that holds the same id
  and, deposit by deposit, the same nonce, bytes and strings, and the same
  amount, but a zero where the amount was nil; so it holds the very same
  values when no amount is nil. Cloning leaves the original as it was, and
  so does every write to a byte of a byte slice of the clone and every
  write to an amount of the clone. *)
Theorem TransferBatch_Clone_is_deep_copy h tb v :
  batchValue h tb = Some v ->
  exists c h' ds,
    TransferBatch_Clone tb h = Some (c, h') /\
    tb <> Some c /\
    batchValue h' (Some c) = Some (clonedBatch v) /\
    (Forall (λ d, is_Some (amount d)) (depositValues v) ->
       batchValue h' (Some c) = Some v) /\
    batchValue h' tb = Some v /\
    batchDeposits h' (Some c) = Some ds /\
    length ds = length (depositValues v) /\
    forall d, d ∈ ds ->
      (forall s i x h'', s ∈ [ToBytes d; FromBytes d; TokenBytes d] ->
         setByte s i x h' = Some h'' -> batchValue h'' tb = Some v) /\
      (forall z h'', SetInt64 (Amount d) z h' = Some h'' ->
         batchValue h'' tb = Some v).
Proof.
  intros Hv. pose proof Hv as Hv0. unfold batchValue in Hv.
  destruct tb as [l|]; simpl in Hv; [|done].
  destruct (batches h !! l) as [b|] eqn:Hb; simpl in Hv; [|done].
  destruct (readPointers h (Deposits b)) as [ps|] eqn:Hps; simpl in Hv; [|done].
  destruct (mapM (depositValue h) ps) as [vs|] eqn:Hvs; simpl in Hv; [|done].
  injection Hv as <-.
  unfold TransferBatch_Clone. cbn [mbind option_bind]. rewrite Hb.
  cbn [mbind option_bind]. unfold makePointers, newBatch.
  cbn [pointerArrays batches withPointerArrays withBatches].
  set (N := sliceLen (Deposits b)).
  set (pa := fresh (dom (pointerArrays h))).
  set (cloned := fresh (dom (batches h))).
  set (h2 := withBatches _ _).
  assert (pointerArrays h !! pa = None) as Npa by apply fresh_lookup.
  assert (batches h !! cloned = None) as Ncl by apply fresh_lookup.
  assert (length ps = N) as HN by by apply (readPointers_length h).
  destruct (cloneDeposits_spec h (Deposits b) ps vs cloned pa (ID b) N
              Hps Hvs HN Npa Ncl N 0%nat h2 [])
    as (h' & cs' & Hloop & Hext & Hb' & Hp' & Hlen & Hm & Hfresh).
  - lia.
  - unfold h2, extends. simpl. split_and!; try done; by apply insert_subseteq.
  - unfold h2. simpl. by rewrite lookup_insert_eq.
  - unfold h2. simpl. by rewrite lookup_insert_eq.
  - done.
  - done.
  - constructor.
  - destruct (batchDeposits_fresh h h' cs' Hfresh) as (ds & Hds & Hdl & HF).
    assert (readPointers h'
              (Some {| arr := pa; off := 0; len := N; cap := N |}) = Some (Some <$> cs'))
      as Hrp.
    { simpl. rewrite Hp'. simpl. rewrite length_fmap, Hlen.
      destruct (Nat.leb_spec N N); [|lia].
      by rewrite drop_0, take_ge by (rewrite length_fmap; lia). }
    assert (batchValue h' (Some cloned)
            = Some (clonedBatch {| id := ID b; depositValues := vs |})) as Hcv.
    { unfold batchValue. cbn [mbind option_bind]. rewrite Hb'.
      cbn [mbind option_bind Deposits ID]. rewrite Hrp. cbn [mbind option_bind].
      rewrite Hm. done. }
    rewrite Hloop. cbn [mbind option_bind].
    exists cloned, h', ds. split_and!.
    + done.
    + intros [= ->]. congruence.
    + done.
    + intros Hall. by rewrite Hcv, clonedBatch_same.
    + by apply (batchValue_extends h).
    + unfold batchDeposits. cbn [mbind option_bind]. rewrite Hb'.
      cbn [mbind option_bind Deposits]. rewrite Hrp. cbn [mbind option_bind]. done.
    + simpl. apply length_mapM in Hvs. lia.
    + intros d Hd. rewrite Forall_forall in HF.
      destruct (HF d Hd) as (Ft & Ff & Fk & Fa). split.
      * intros s i x h'' Hs Hset. apply (batchValue_extends h); [|done].
        eapply setByte_extends; [exact Hext| |exact Hset].
        apply elem_of_cons in Hs as [->|Hs]; [done|].
        apply elem_of_cons in Hs as [->|Hs]; [done|].
        apply elem_of_cons in Hs as [->|Hs]; [done|].
        by apply elem_of_nil in Hs.
      * intros z h'' Hset. apply (batchValue_extends h); [|done].
        eapply SetInt64_extends; [exact Hext| |exact Hset]. done.
Qed.

End CloneProperties.

(** *** Cloning the batch with one deposit *)

(** The deposit of the batch has a nil amount: the clone holds a zero where
  the original holds none, so the field values differ. *)
Lemma TransferBatch_Clone_nil_amount_counterexample :
  exists c h' v v',
    clients.TransferBatch_Clone (Some 1%positive) clients.heapWithNilAmount
      = Some (c, h') /\
    clients.batchValue clients.heapWithNilAmount (Some 1%positive) = Some v /\
    clients.batchValue h' (Some c) = Some v' /\
    clients.amount <$> clients.depositValues v = [None] /\
    clients.amount <$> clients.depositValues v' = [Some 0] /\
    v <> v'.
Proof.
  do 4 eexists. split_and!; [vm_compute; reflexivity..|]. discriminate.
Qed.

(** The deposit of the batch has the amount 100: the clone holds the values
  of the original, the original is as it was, and a write to a byte of the
  recipient bytes of the clone, or to its amount, does not reach the
  original. *)
Lemma TransferBatch_Clone_witness :
  exists v c h',
    clients.batchValue clients.heapWithAmount (Some 1%positive) = Some v /\
    clients.TransferBatch_Clone (Some 1%positive) clients.heapWithAmount
      = Some (c, h') /\
    clients.batchValue h' (Some c) = Some v /\
    clients.batchValue h' (Some 1%positive) = Some v /\
    forall ds d x z h'',
      clients.batchDeposits h' (Some c) = Some ds -> d ∈ ds ->
      clients.setByte (clients.ToBytes d) 0 x h' = Some h'' \/
      clients.SetInt64 (clients.Amount d) z h' = Some h'' ->
      clients.batchValue h'' (Some 1%positive) = Some v.
Proof.
  pose proof (TransferBatch_Clone_is_deep_copy clients.heapWithAmount
                (Some 1%positive) _ eq_refl) as H.
  destruct H as (c & h' & ds & H1 & _ & _ & H4 & H5 & H6 & _ & H8).
  eexists _, c, h'. split_and!.
  - reflexivity.
  - exact H1.
  - apply H4. repeat constructor. by eexists.
  - exact H5.
  - intros ds' d x z h'' Hds Hd Hw. rewrite H6 in Hds. injection Hds as <-.
    destruct (H8 d Hd) as [Hb Ha]. destruct Hw as [Hw|Hw].
    + eapply Hb; [|exact Hw]. by left.
    + eapply Ha. exact Hw.
Defined.

(** * Further properties *)

(** ** The Ethereum client: argument lists and balances *)
Section ClientLists.
Import ethereum.
Context {Env : Type}.
Variable range : gmap (list byte) Z -> list (list byte * Z).

Lemma extractListFrom_lists (c : client Env) ctx ds arg st :
  match (extractListFrom c ctx ds arg st).1 with
  | Returned (Ok a) =>
      recipients a = recipients arg ++ ((BytesToAddress ∘ clients.toBytes) <$> ds) /\
      nonces a = nonces arg ++ (clients.nonce <$> ds) /\
      Some <$> amounts a = (Some <$> amounts arg) ++ (clients.amount <$> ds) /\
      length (tokens a) = (length (tokens arg) + length ds)%nat
  | Returned (Err e) => exists msg, e = errFrom msg
  | Panicked => exists d, d ∈ ds /\ clients.amount d = None
  end.
Proof.
  revert arg st. induction ds as [|dt ds IH]; intros arg [env tr]; simpl.
  - rewrite !app_nil_r. split_and!; [done..|lia].
  - unfold bind, invoke. simpl.
    destruct (ConvertToken (tokensMapper c) ctx (clients.tokenBytes dt) env)
      as [[erc20|e] env']; simpl; [|by eexists].
    destruct (clients.amount dt) as [a|] eqn:Ha; simpl.
    + match goal with |- context [extractListFrom c ctx ds ?arg' ?st'] =>
        specialize (IH arg' st'); destruct (extractListFrom c ctx ds arg' st').1
          as [[r|e]|] end; simpl in *.
      * destruct IH as (I1 & I2 & I3 & I4).
        rewrite I1, I2, I3, I4, !fmap_app, !length_app, <- !app_assoc. simpl.
        split_and!; [done..|lia].
      * done.
      * destruct IH as (d & Hd & Hn). exists d. split; [by right|done].
    + exists dt. split; [by left|done].
Qed.


Lemma sumFor_not_in (token : list byte) (toks : list (list byte)) (amts : list Z) :
  token ∉ toks -> sumFor token toks amts = 0.
Proof.
  revert amts. induction toks as [|t toks IH]; intros [|a amts] Hn; simpl; try done.
  apply not_elem_of_cons in Hn as [Hne Hn].
  destruct (decide (t = token)); [congruence|]. by rewrite IH.
Qed.

Lemma getCumulatedTransfersFrom_spec (toks : list (list byte)) (amts : list Z) (i : nat)
    (m : gmap (list byte) Z) :
  (i + length toks <= length amts)%nat ->
  exists m', getCumulatedTransfersFrom toks amts i m = Returned m' /\
    forall t, m' !! t =
      if decide (t ∈ toks)
      then Some (default 0 (m !! t) + sumFor t toks (drop i amts))
      else m !! t.
Proof.
  revert i m. induction toks as [|tk toks IH]; intros i m Hlen; simpl in *.
  - exists m. split; [done|]. intros t. destruct (decide (t ∈ [])) as [H|_]; [|done].
    by apply elem_of_nil in H.
  - destruct (lookup_lt_is_Some_2 amts i) as [a Ha]; [lia|]. rewrite Ha.
    destruct (IH (S i) (<[tk := default 0 (m !! tk) + a]> m)) as (m' & Hm' & Hl); [lia|].
    exists m'. split; [done|]. intros t. rewrite Hl.
    rewrite (drop_S _ _ _ Ha). simpl.
    destruct (decide (tk = t)) as [->|Hne].
    + rewrite lookup_insert_eq. simpl.
      destruct (decide (t ∈ t :: toks)) as [_|Hn]; [|exfalso; apply Hn; by left].
      destruct (decide (t ∈ toks)) as [Hin|Hnin].
      * f_equal; lia.
      * rewrite (sumFor_not_in _ _ _ Hnin). f_equal; lia.
    + rewrite lookup_insert_ne by done.
      destruct (decide (t ∈ toks)) as [Hin|Hnin].
      * destruct (decide (t ∈ tk :: toks)) as [_|Hn]; [|exfalso; apply Hn; by right].
        f_equal; lia.
      * destruct (decide (t ∈ tk :: toks)) as [Hin|_]; [|done].
        apply elem_of_cons in Hin as [->|Hin]; done.
Qed.

(** [getCumulatedTransfers] adds up the amounts token by token. With an
  amount for every token it returns a map whose keys are the tokens of the
  list, each with the sum of its amounts; with fewer amounts than tokens it
  panics. *)
Theorem getCumulatedTransfers_sums (toks : list (list byte)) (amts : list Z) :
  ((length toks <= length amts)%nat ->
     exists m, getCumulatedTransfers toks amts = Returned m /\
       forall t, m !! t = if decide (t ∈ toks) then Some (sumFor t toks amts) else None) /\
  ((length amts < length toks)%nat -> getCumulatedTransfers toks amts = Panicked).
Proof.
  split.
  - intros Hlen. unfold getCumulatedTransfers.
    destruct (getCumulatedTransfersFrom_spec toks amts 0 ∅) as (m & Hm & Hl); [lia|].
    exists m. split; [done|]. intros t. rewrite Hl, lookup_empty, drop_0. simpl.
    destruct (decide (t ∈ toks)); [f_equal; lia|done].
  - unfold getCumulatedTransfers. generalize (∅ : gmap (list byte) Z).
    assert (forall i (m : gmap (list byte) Z),
              (i <= length amts < i + length toks)%nat ->
              getCumulatedTransfersFrom toks amts i m = Panicked) as H.
    { induction toks as [|tk toks IH]; intros i m Hlt; simpl in *.
      - lia.
      - destruct (amts !! i) as [a|] eqn:Ha; [|done].
        apply lookup_lt_Some in Ha. apply IH. lia. }
    intros m Hlt. apply H. lia.
Qed.

End ClientLists.

(** Two amounts of 60 for one token cumulate to 120; with one amount
  missing, the second index is out of range. *)
Lemma getCumulatedTransfers_sums_witness :
  (exists m, ethereum.getCumulatedTransfers [[x0c]; [x0c]] [60; 60] = Returned m /\
             m !! [x0c] = Some 120) /\
  ethereum.getCumulatedTransfers [[x0c]; [x0c]] [60] = Panicked.
Proof.
  split.
  - destruct (proj1 (getCumulatedTransfers_sums [[x0c]; [x0c]] [60; 60]))
      as (m & Hm & Hl); [simpl; lia|].
    exists m. split; [exact Hm|]. rewrite Hl. reflexivity.
  - apply (getCumulatedTransfers_sums [[x0c]; [x0c]] [60]). simpl. lia.
Defined.

Section ClientBalances.
Import ethereum.
Context {Env : Type}.
Variable range : gmap (list byte) Z -> list (list byte * Z).
Hypothesis range_perm : forall m, range m ≡ₚ map_to_list m.
Variable c : client Env.
Variable ctx : context.
Variable balance : list byte -> Z.
Hypothesis balance_known : forall erc20 env,
  BalanceOf (erc20ContractsHandler c) ctx erc20 (safeContractAddress c) env
    = (Ok (balance erc20), env).

Lemma checkCumulatedTransfersFrom_known (l : list (list byte * Z)) st :
  (checkCumulatedTransfersFrom c ctx l st).2.1 = st.1 /\
  match (checkCumulatedTransfersFrom c ctx l st).1 with
  | Returned None => Forall (λ tv, tv.2 <= balance tv.1) l
  | Returned (Some e) =>
      exists t v, (t, v) ∈ l /\ balance t < v /\
        e = errInsufficientErc20Balance (balance t) v t (safeContractAddress c)
  | Panicked => False
  end.
Proof.
  revert st. induction l as [|[t v] l IH]; intros [env tr]; simpl.
  - split; [done|]. constructor.
  - unfold bind, invoke, logLine. simpl. rewrite balance_known. simpl.
    destruct (Z.ltb_spec (balance t) v); simpl.
    + split; [done|]. exists t, v. split_and!; [by left|done..].
    + match goal with |- context [checkCumulatedTransfersFrom c ctx l ?st'] =>
        destruct (IH st') as (I1 & I2);
        destruct (checkCumulatedTransfersFrom c ctx l st') as [[[e|]|] st2] end;
        simpl in *.
      * split; [done|]. destruct I2 as (t' & v' & Hin & ?). exists t', v'.
        split; [by right|done].
      * split; [done|]. by constructor.
      * done.
Qed.

Lemma checkAvailableTokens_known (toks : list (list byte)) (amts : list Z) st :
  (length toks <= length amts)%nat ->
  let out := checkAvailableTokens range c ctx toks amts st in
  out.2.1 = st.1 /\
  (out.1 = Returned None <-> forall t, t ∈ toks -> sumFor t toks amts <= balance t) /\
  (forall e, out.1 = Returned (Some e) ->
     exists t, t ∈ toks /\ balance t < sumFor t toks amts /\
       e = errInsufficientErc20Balance (balance t) (sumFor t toks amts) t
             (safeContractAddress c)) /\
  out.1 <> Panicked.
Proof.
  intros Hlen out. unfold out, checkAvailableTokens, getCumulatedTransfers.
  destruct (getCumulatedTransfersFrom_spec toks amts 0 ∅) as (m & -> & Hl); [lia|].
  assert (forall t v, (t, v) ∈ range m <-> t ∈ toks /\ v = sumFor t toks amts) as Hin.
  { intros t v. rewrite (range_perm m), elem_of_map_to_list, Hl, lookup_empty, drop_0.
    simpl. destruct (decide (t ∈ toks)) as [Ht|Ht].
    - rewrite Z.add_0_l. split; [intros [= <-]; by split|intros [_ ->]; reflexivity].
    - split; [discriminate|intros [Ht' _]; destruct (Ht Ht')]. }
  unfold checkCumulatedTransfers.
  destruct (checkCumulatedTransfersFrom_known (range m) st) as (H1 & H2).
  destruct (checkCumulatedTransfersFrom c ctx (range m) st) as [[[e|]|] st']; simpl in *.
  - destruct H2 as (t & v & Htv & Hlt & ->). apply Hin in Htv as [Ht ->].
    split_and!; [done| |by intros ? [= <-]; eauto|done].
    split; [done|]. intros Hall. specialize (Hall t Ht). lia.
  - split_and!; [done| |done|done].
    split; [|done]. intros _ t Ht. rewrite Forall_forall in H2.
    apply (H2 (t, sumFor t toks amts)). by apply Hin.
  - done.
Qed.

(** With a safe whose balances are known, [checkAvailableTokens] lets a
  batch pass exactly when, for every token, the amounts of that token taken
  together do not exceed the balance; otherwise its error names a token
  whose cumulated amount does. The verdict does not depend on the order in
  which the map of cumulated transfers is visited, and the check does not
  panic on lists of equal length. *)
Theorem checkAvailableTokens_cumulated (toks : list (list byte)) (amts : list Z) st :
  (length toks <= length amts)%nat ->
  let out := checkAvailableTokens range c ctx toks amts st in
  out.2.1 = st.1 /\
  (out.1 = Returned None <-> forall t, t ∈ toks -> sumFor t toks amts <= balance t) /\
  (forall e, out.1 = Returned (Some e) ->
     exists t, t ∈ toks /\ balance t < sumFor t toks amts /\
       e = errInsufficientErc20Balance (balance t) (sumFor t toks amts) t
             (safeContractAddress c)) /\
  out.1 <> Panicked.
Proof. apply checkAvailableTokens_known. Qed.

(** *** The whole transfer, with a tokens mapper and balances that are known *)
Variable erc20 : list byte -> list byte.
Hypothesis convert_known : forall t env,
  ConvertToken (tokensMapper c) ctx t env = (Ok (erc20 t), env).

Lemma extractListFrom_known (ds : list clients.DepositValue) (amts : list Z) arg env tr :
  clients.amount <$> ds = Some <$> amts ->
  exists tr',
    extractListFrom c ctx ds arg (env, tr) =
      (Returned (Ok {| tokens := tokens arg
                                 ++ ((BytesToAddress ∘ erc20 ∘ clients.tokenBytes) <$> ds);
                       recipients := recipients arg
                                     ++ ((BytesToAddress ∘ clients.toBytes) <$> ds);
                       amounts := amounts arg ++ amts;
                       nonces := nonces arg ++ (clients.nonce <$> ds) |}), (env, tr')).
Proof.
  revert amts arg tr. induction ds as [|dt ds IH]; intros amts arg tr Ha; simpl.
  - destruct amts; [|done]. rewrite !app_nil_r. exists tr. by destruct arg.
  - destruct amts as [|a amts]; [done|]. simpl in Ha. injection Ha as Ha Ha'.
    unfold bind, invoke. simpl. rewrite convert_known, Ha. simpl.
    match goal with |- context [extractListFrom c ctx ds ?arg' (env, ?tr1)] =>
      destruct (IH amts arg' tr1 Ha') as (tr' & ->) end.
    exists tr'. simpl. by rewrite <- !app_assoc.
Qed.

(** When every collaborator answers, the tokens mapper and the balances of
  the safe are known, no amount is nil and the quorum is reached,
  [ExecuteTransfer] hands the batch to the contract exactly when the safe
  covers, token by token, the sum of the amounts of the batch. The contract
  then receives the tokens, recipients, amounts and nonces of the deposits in
  order, the batch id and the first [quorum] signatures, and its answer is
  what [ExecuteTransfer] returns. Otherwise the insufficient-balance error of
  a token that is short is returned and the contract is not called. *)
Theorem ExecuteTransfer_submits_covered_batches msgHash b quorum env tr
    blockNonce env1 nonce env2 chainId env3 auth0 gasPrice env4 sigs env5 amts :
  BlockNumber (clientWrapper c) ctx env = (Ok blockNonce, env1) ->
  NonceAt (clientWrapper c) ctx (relayerAddress c) (toInt64 blockNonce) env1
    = ((nonce, None), env2) ->
  ChainID (clientWrapper c) ctx env2 = (Ok chainId, env3) ->
  newKeyedTransactor c chainId = Ok auth0 ->
  GetCurrentGasPrice (gasHandler c) env3 = (Ok gasPrice, env4) ->
  Signatures (signatureHolder c) msgHash env4 = (sigs, env5) ->
  0 <= quorum <= Z.of_nat (length sigs) ->
  clients.amount <$> clients.depositValues b = Some <$> amts ->
  let ds := clients.depositValues b in
  let toks := (BytesToAddress ∘ erc20 ∘ clients.tokenBytes) <$> ds in
  let lists := {| tokens := toks;
                  recipients := (BytesToAddress ∘ clients.toBytes) <$> ds;
                  amounts := amts;
                  nonces := clients.nonce <$> ds |} in
  let auth := {| From := From auth0; Nonce := Some (toInt64 nonce); Value := Some 0;
                 GasPrice := Some gasPrice; GasLimit := transferGasLimit c;
                 Context := Some ctx |} in
  let signatures := take (Z.to_nat quorum) sigs in
  let out := ExecuteTransfer range c ctx msgHash (Some b) quorum (env, tr) in
  ((forall t, t ∈ toks -> sumFor t toks amts <= balance t) ->
     CallExecuteTransfer auth lists (clients.id b) signatures ∈ out.2.2 /\
     contractCalls out.2.2 = contractCalls tr ++ [signatures] /\
     out.1 = match (ExecuteTransfer_contract (clientWrapper c) auth lists (clients.id b)
                      signatures env5).1 with
             | Ok txHash => Returned (txHash, None)
             | Err e => Returned ("", Some (errFrom e))
             end) /\
  ((exists t, t ∈ toks /\ balance t < sumFor t toks amts) ->
     contractCalls out.2.2 = contractCalls tr /\
     exists t, t ∈ toks /\ balance t < sumFor t toks amts /\
       out.1 = Returned ("", Some (errInsufficientErc20Balance (balance t)
                                     (sumFor t toks amts) t (safeContractAddress c)))).
Proof.
  intros Hbn Hna Hch Hkt Hgp Hsig [Hq0 Hq] Hamts ds toks lists auth signatures out.
  unfold out, ExecuteTransfer, getNonce, bind, invoke, logLine, ret. simpl.
  rewrite Hbn. simpl. rewrite Hna. simpl. rewrite Hch. simpl. rewrite Hkt. simpl.
  rewrite Hgp. simpl. rewrite Hsig. simpl.
  assert ((Z.of_nat (length sigs) <? quorum) = false) as -> by lia.
  set (tr0 := ((((((tr ++ [CallLog state.LogInfo "executing transfer"]) ++
                [CallBlockNumber]) ++
                [CallNonceAt (relayerAddress c) (toInt64 blockNonce)]) ++
                [CallChainID]) ++ [CallGetCurrentGasPrice]) ++
                [CallSignatures msgHash])).
  assert (contractCalls tr0 = contractCalls tr) as Htr0.
  { unfold tr0. by rewrite !contractCalls_app, !app_nil_r. }
  match goal with |- context [?reduce (env5, tr0)] =>
    assert (exists tr1, reduce (env5, tr0) = (Returned signatures, (env5, tr1)) /\
                         contractCalls tr1 = contractCalls tr) as (tr1 & -> & Htr1)
  end.
  { destruct (Z.ltb_spec quorum (Z.of_nat (length sigs))).
    - unfold sliceTo, ret. simpl.
      assert ((quorum <? 0) = false) as -> by lia.
      eexists. split; [done|]. by rewrite !contractCalls_app, !app_nil_r.
    - exists tr0. split; [|done]. unfold signatures. rewrite take_ge; [done|lia]. }
  unfold extractList.
  destruct (extractListFrom_known ds amts
              {| tokens := []; recipients := []; amounts := []; nonces := [] |}
              env5 tr1 Hamts) as (tr2 & Hex).
  pose proof (extractListFrom_contractCalls c ctx ds
                {| tokens := []; recipients := []; amounts := []; nonces := [] |}
                (env5, tr1)) as Hc2.
  fold ds. rewrite Hex in Hc2 |- *. simpl in Hc2 |- *. fold toks lists.
  assert (length toks <= length amts)%nat as Hlen.
  { apply (f_equal length) in Hamts. unfold toks. rewrite !length_fmap in *.
    fold ds in Hamts. lia. }
  destruct (checkAvailableTokens_known toks amts (env5, tr2) Hlen)
    as (Henv & Hnone & Herr & Hnp).
  pose proof (checkAvailableTokens_contractCalls range c ctx toks amts (env5, tr2)) as Hc3.
  destruct (checkAvailableTokens range c ctx toks amts (env5, tr2))
    as [[[e|]|] [env6 tr3]]; simpl in *; [| |done].
  - destruct (Herr e eq_refl) as (t & Ht & Hlt & ->). split.
    + intros Hall. specialize (Hall t Ht). lia.
    + intros _. split; [congruence|]. by exists t.
  - subst env6. split.
    + intros _. subst auth.
      destruct (ExecuteTransfer_contract (clientWrapper c) _ lists (clients.id b)
                  signatures env5) as [[txHash|e] env7]; simpl.
      * split_and!; [|by rewrite !contractCalls_app; simpl;
                        rewrite app_nil_r, Hc3, Hc2, Htr1|done].
        apply elem_of_app. left. apply elem_of_app. right. by left.
      * split_and!; [|by rewrite !contractCalls_app; simpl; rewrite Hc3, Hc2, Htr1|done].
        apply elem_of_app. right. by left.
    + intros (t & Ht & Hlt). destruct Hnone as [Hn _].
      specialize (Hn eq_refl t Ht). lia.
Qed.

End ClientBalances.

(** The batch of two transfers of 60 of one token, with three signatures
  held and quorum 2: a safe holding 120 of the token has the contract
  called with the first two signatures, a safe holding 100 has not. *)
Lemma ExecuteTransfer_submits_covered_witness :
  let run bal := ethereum.ExecuteTransfer map_to_list
                   (ethereum.stubClientWithBalance bal ethereum.threeSignatures)
                   {| done := false |} [] (Some ethereum.batch8) 2 (tt, []) in
  (run 120).1 = Returned ("0xabc", None) /\
  ethereum.contractCalls (run 120).2.2 = [[[x01]; [x02]]] /\
  ethereum.contractCalls (run 100).2.2 = [].
Proof.
  intros run.
  pose (thm bal := ExecuteTransfer_submits_covered_batches map_to_list
                     (fun _ => Permutation_refl _)
                     (ethereum.stubClientWithBalance bal ethereum.threeSignatures)
                     {| done := false |} (fun _ => bal) (fun _ _ => eq_refl)
                     (fun t => t) (fun _ _ => eq_refl)
                     [] ethereum.batch8 2 tt [] 5 tt 7 tt (Some 1) tt ethereum.stubAuth
                     50 tt ethereum.threeSignatures tt [60; 60]
                     eq_refl eq_refl eq_refl eq_refl eq_refl eq_refl
                     (conj (Z.le_0_2) (Zle_bool_imp_le 2 3 eq_refl)) eq_refl).
  destruct (thm 120) as [Hyes _]. destruct (thm 100) as [_ Hno]. clear thm.
  destruct Hyes as (_ & Hc & Ho).
  { intros t Ht.
    apply elem_of_cons in Ht as [->|Ht]; [apply Z.leb_le; vm_compute; reflexivity|].
    apply elem_of_cons in Ht as [->|Ht]; [apply Z.leb_le; vm_compute; reflexivity|].
    apply elem_of_nil in Ht. destruct Ht. }
  destruct Hno as [Hn _].
  { exists (ethereum.BytesToAddress [x0c]). split; [apply list_elem_of_here|].
    apply Z.ltb_lt. vm_compute. reflexivity. }
  split; [exact Ho|]. split; [exact Hc|exact Hn].
Defined.

(** Two transfers of 60 of one token: a safe holding 100 of it refuses them
  together although each fits, a safe holding 120 lets them pass. *)
Lemma checkAvailableTokens_cumulated_witness :
  let toks := [ethereum.BytesToAddress [x0c]; ethereum.BytesToAddress [x0c]] in
  let run b := (ethereum.checkAvailableTokens map_to_list
                  (ethereum.stubClientWithBalance b []) {| done := false |}
                  toks [60; 60] (tt, [])).1 in
  run 100 <> Returned None /\ run 100 <> Panicked /\ run 120 = Returned None.
Proof.
  intros toks run.
  pose (thm b := checkAvailableTokens_cumulated map_to_list (fun _ => Permutation_refl _)
                   (ethereum.stubClientWithBalance b []) {| done := false |}
                   (fun _ => b) (fun _ _ => eq_refl) toks [60; 60] (tt, [])
                   (Nat.le_refl 2)).
  assert (ethereum.sumFor (ethereum.BytesToAddress [x0c]) toks [60; 60] = 120) as Hs
    by (vm_compute; reflexivity).
  destruct (thm 100) as (_ & [Hn _] & _ & Hp).
  destruct (thm 120) as (_ & [_ Hy] & _ & _).
  split; [|split].
  - intros E. specialize (Hn E (ethereum.BytesToAddress [x0c]) (list_elem_of_here _ _)).
    rewrite Hs in Hn. lia.
  - exact Hp.
  - apply Hy. intros t Ht.
    apply elem_of_cons in Ht as [->|Ht]; [rewrite Hs; lia|].
    apply elem_of_cons in Ht as [->|Ht]; [rewrite Hs; lia|].
    apply elem_of_nil in Ht. destruct Ht.
Defined.

Section ClientTransfer.
Import ethereum.
Context {Env : Type}.
Variable range : gmap (list byte) Z -> list (list byte * Z).

Local Ltac no_call :=
  simpl; split_and!;
  [ done
  | try done; by intros ?? [= <- _]
  | left; simpl in *; rewrite ?contractCalls_app; simpl; rewrite ?app_nil_r; congruence
  | done
  | intros _; simpl in *; rewrite ?contractCalls_app; simpl; rewrite ?app_nil_r; congruence ].

(** Whatever the collaborators answer, [ExecuteTransfer] calls the contract
  at most once, and a call it makes carries exactly [quorum] signatures.
  With a nil batch it returns [errNilBatch] and touches nothing. An error
  always comes with the empty hash; a result without error means the
  contract was called; a panic means it was not. *)
Theorem ExecuteTransfer_calls_contract_at_most_once (c : client Env) ctx msgHash batch
    quorum st :
  let out := ExecuteTransfer range c ctx msgHash batch quorum st in
  (batch = None -> out = (Returned ("", Some errNilBatch), st)) /\
  (forall h e, out.1 = Returned (h, Some e) -> h = "") /\
  (contractCalls out.2.2 = contractCalls st.2 \/
   exists sigs, contractCalls out.2.2 = contractCalls st.2 ++ [sigs] /\
                Z.of_nat (length sigs) = quorum) /\
  (forall h, out.1 = Returned (h, None) ->
     exists sigs, contractCalls out.2.2 = contractCalls st.2 ++ [sigs]) /\
  (out.1 = Panicked -> contractCalls out.2.2 = contractCalls st.2).
Proof.
  intros out. unfold out. clear out. destruct st as [env tr].
  destruct batch as [b|]; simpl.
  2: { unfold ret. simpl.
       split_and!; [done | by intros ?? [= <- _] | by left | done | done]. }
  unfold getNonce, bind, invoke, logLine, ret. simpl.
  destruct (BlockNumber (clientWrapper c) ctx env) as [[blockNonce|e] env1]; simpl.
  2: no_call.
  destruct (NonceAt (clientWrapper c) ctx (relayerAddress c) (toInt64 blockNonce) env1)
    as [[nonce [e|]] env2]; simpl.
  1: no_call.
  destruct (ChainID (clientWrapper c) ctx env2) as [[chainId|e] env3]; simpl.
  2: no_call.
  destruct (newKeyedTransactor c chainId) as [auth0|e]; simpl.
  2: no_call.
  destruct (GetCurrentGasPrice (gasHandler c) env3) as [[gasPrice|e] env4]; simpl.
  2: no_call.
  destruct (Signatures (signatureHolder c) msgHash env4) as [sigs env5]; simpl.
  destruct (Z.ltb_spec (Z.of_nat (length sigs)) quorum) as [Hlt|Hge]; simpl.
  1: no_call.
  set (st0 := (env5, ((((((tr ++ [CallLog state.LogInfo "executing transfer"]) ++
                [CallBlockNumber]) ++
                [CallNonceAt (relayerAddress c) (toInt64 blockNonce)]) ++
                [CallChainID]) ++ [CallGetCurrentGasPrice]) ++
                [CallSignatures msgHash]))).
  assert (contractCalls st0.2 = contractCalls tr) as Hst0.
  { unfold st0. simpl. by rewrite !contractCalls_app, !app_nil_r. }
  match goal with |- context [?reduce st0] =>
    assert (exists o st1,
              reduce st0 = (o, st1) /\
              contractCalls st1.2 = contractCalls tr /\
              forall sigs', o = Returned sigs' -> Z.of_nat (length sigs') = quorum)
      as (o & st1 & -> & Hst1 & Hsigs)
  end.
  { destruct (Z.ltb_spec quorum (Z.of_nat (length sigs))).
    - unfold sliceTo, panic, ret. simpl. destruct (Z.ltb_spec quorum 0); simpl.
      + eexists _, _. split; [done|]. simpl.
        split; [by rewrite !contractCalls_app, !app_nil_r|done].
      + eexists _, _. split; [done|]. simpl.
        split; [by rewrite !contractCalls_app, !app_nil_r|].
        intros ? [= <-]. rewrite length_take. lia.
    - eexists _, _. split; [done|]. split; [done|]. intros ? [= <-]. lia. }
  destruct o as [sigs'|]; [|no_call].
  specialize (Hsigs sigs' eq_refl).
  pose proof (extractListFrom_contractCalls c ctx (clients.depositValues b)
                {| tokens := []; recipients := []; amounts := []; nonces := [] |} st1)
    as Hex.
  unfold extractList.
  destruct (extractListFrom c ctx (clients.depositValues b) _ st1)
    as [[[argLists|e]|] st2]; [|no_call..].
  pose proof (checkAvailableTokens_contractCalls range c ctx (tokens argLists)
                (amounts argLists) st2) as Hck.
  destruct (checkAvailableTokens range c ctx (tokens argLists) (amounts argLists) st2)
    as [[[e|]|] st3]; [no_call| |no_call].
  simpl.
  assert (contractCalls st3.2 = contractCalls tr) as Hst3 by (simpl in *; congruence).
  destruct (ExecuteTransfer_contract (clientWrapper c) _ argLists (clients.id b) sigs' st3.1)
    as [[txHash|e] env6]; simpl.
  - split_and!; [done|done| | |done].
    + right. exists sigs'. rewrite !contractCalls_app. simpl.
      by rewrite app_nil_r, Hst3.
    + intros _ _. exists sigs'. rewrite !contractCalls_app. simpl.
      by rewrite app_nil_r, Hst3.
  - split_and!; [done|by intros ?? [= <- _]| |done|done].
    right. exists sigs'. rewrite !contractCalls_app. simpl. by rewrite Hst3.
Qed.

(** A negative quorum is below any number of signatures the holder can
  return, so the quorum check passes, and the reduction of the signature
  set to [signatures[:quorum]] panics: the contract is not called. *)
Theorem ExecuteTransfer_negative_quorum_panics (c : client Env) ctx msgHash b quorum env tr
    blockNonce env1 nonce env2 chainId env3 auth0 gasPrice env4 sigs env5 :
  BlockNumber (clientWrapper c) ctx env = (Ok blockNonce, env1) ->
  NonceAt (clientWrapper c) ctx (relayerAddress c) (toInt64 blockNonce) env1
    = ((nonce, None), env2) ->
  ChainID (clientWrapper c) ctx env2 = (Ok chainId, env3) ->
  newKeyedTransactor c chainId = Ok auth0 ->
  GetCurrentGasPrice (gasHandler c) env3 = (Ok gasPrice, env4) ->
  Signatures (signatureHolder c) msgHash env4 = (sigs, env5) ->
  quorum < 0 ->
  let out := ExecuteTransfer range c ctx msgHash (Some b) quorum (env, tr) in
  out.1 = Panicked /\ contractCalls out.2.2 = contractCalls tr.
Proof.
  intros Hbn Hna Hch Hkt Hgp Hsig Hq out.
  unfold out, ExecuteTransfer, getNonce, bind, invoke, logLine, ret. simpl.
  rewrite Hbn. simpl. rewrite Hna. simpl. rewrite Hch. simpl. rewrite Hkt. simpl.
  rewrite Hgp. simpl. rewrite Hsig. simpl.
  assert ((Z.of_nat (length sigs) <? quorum) = false) as -> by (apply Z.ltb_ge; lia).
  assert ((quorum <? Z.of_nat (length sigs)) = true) as -> by (apply Z.ltb_lt; lia).
  unfold sliceTo, panic. simpl.
  assert ((quorum <? 0) = true) as -> by (apply Z.ltb_lt; lia). simpl.
  split; [done|]. by rewrite !contractCalls_app, !app_nil_r.
Qed.

End ClientTransfer.

(** With three signatures held and quorum -1, the call panics. *)
Lemma ExecuteTransfer_negative_quorum_witness :
  (ethereum.ExecuteTransfer map_to_list
     (ethereum.stubClient (Ok 5) ethereum.threeSignatures) {| done := false |} []
     (Some ethereum.batch7) (-1) (tt, [])).1 = Panicked.
Proof.
  apply (ExecuteTransfer_negative_quorum_panics map_to_list
           (ethereum.stubClient (Ok 5) ethereum.threeSignatures) {| done := false |} []
           ethereum.batch7 (-1) tt [] 5 tt 7 tt (Some 1) tt ethereum.stubAuth 50 tt
           ethereum.threeSignatures tt
           eq_refl eq_refl eq_refl eq_refl eq_refl eq_refl eq_refl).
Defined.

(** ** The engine on a closed graph *)
Section EngineRuns.
Import state.
Context {W Logger : Type}.
Variable range : gmap string (option (Step W)) -> list (string * option (Step W)).
Hypothesis range_perm : forall m, range m ≡ₚ map_to_list m.
Variable m : gmap string (option (Step W)).
Hypothesis closed : forall i s c w,
  m !! i = Some (Some s) -> is_Some (m !! (Execute s c w).1).

Implicit Types (sys : system W Logger).

Lemma loopIteration_closed ev sys :
  wellFormed sys -> steps (sm sys) = Some m ->
  (exists i s, m !! i = Some (Some s) /\ currentStep (sm sys) = Some s) ->
  (loop sys = Running \/ (loop sys = Closed /\ done (ctx sys) = true)) ->
  let sys1 := loopIteration ev sys in
  steps (sm sys1) = Some m /\
  (exists i s, m !! i = Some (Some s) /\ currentStep (sm sys1) = Some s) /\
  (loop sys1 = Running \/ (loop sys1 = Closed /\ done (ctx sys1) = true)) /\
  (done (ctx sys1) = true -> done (ctx sys) = true \/ ev = EvClose) /\
  (ev <> EvClose -> loop sys = Running ->
     (loop sys1 = Running \/ done (ctx sys) = true) /\
     length (logs sys1) =
       (length (logs sys) + if decide (ev = EvTimer) then 1
                            else if done (ctx sys) then 1 else 0)%nat).
Proof.
  intros (Hl & Hc & (m' & Hm' & Hall) & _) Hm (i & s & Hi & Hcur) Hloop sys1.
  assert (m' = m) as -> by congruence.
  unfold sys1, loopIteration. destruct ev.
  - unfold Close. rewrite Hc. simpl.
    split_and!; [done|by eauto| |by right|done].
    destruct Hloop as [?|[? ?]]; [by left|by right].
  - destruct Hloop as [HR|[HC Hd]]; rewrite ?HR, ?HC; simpl.
    + destruct (done (ctx sys)) eqn:Hd; simpl.
      * split_and!; [done|by eauto|by right|by left|].
        intros _ _. split; [by right|]. rewrite length_app. simpl. done.
      * rewrite Hd. split_and!; [done|by eauto|by left|done|].
        intros _ _. split; [by left|]. simpl. lia.
    + split_and!; [done|by eauto|by right|by left|]. intros _. congruence.
  - destruct Hloop as [HR|[HC Hd]]; rewrite ?HR, ?HC; simpl.
    2: { split_and!; [done|by eauto|by right|by left|]. intros _. congruence. }
    unfold executeStep. destruct Hl as [l Hl]. rewrite Hl, Hcur.
    destruct (Execute s (ctx sys) (world sys)) as [id w'] eqn:Hex.
    destruct (closed i s (ctx sys) (world sys) Hi) as [next Hnext].
    rewrite Hex in Hnext. simpl in Hnext.
    unfold getNextStep. rewrite Hm. simpl. rewrite Hnext. simpl.
    destruct next as [s'|]; [|by destruct (Hall id)].
    split_and!; [done|by eauto|by left|by left|].
    intros _ _. split; [by left|]. rewrite length_app. simpl. done.
Qed.

Lemma executeLoop_closed evs sys :
  wellFormed sys -> steps (sm sys) = Some m ->
  (exists i s, m !! i = Some (Some s) /\ currentStep (sm sys) = Some s) ->
  (loop sys = Running \/ (loop sys = Closed /\ done (ctx sys) = true)) ->
  let sys' := executeLoop evs sys in
  (exists i s, m !! i = Some (Some s) /\ currentStep (sm sys') = Some s) /\
  (loop sys' = Running \/ (loop sys' = Closed /\ done (ctx sys') = true)) /\
  (done (ctx sys') = true -> done (ctx sys) = true \/ EvClose ∈ evs) /\
  (EvClose ∉ evs -> done (ctx sys) = false -> loop sys = Running ->
     loop sys' = Running /\
     length (logs sys') = (length (logs sys) + length (filter (.= EvTimer) evs))%nat).
Proof.
  unfold executeLoop. revert sys.
  induction evs as [|ev evs IH]; intros sys Hwf Hm Hcur Hloop; simpl.
  - split_and!; [done|done|by left|]. intros _ _ HR. split; [done|].
    by rewrite Nat.add_0_r.
  - destruct (loopIteration_closed ev sys Hwf Hm Hcur Hloop) as (S1 & S2 & S3 & S4 & S5).
    destruct (IH (loopIteration ev sys)
                (loopIteration_wellFormed ev sys Hwf) S1 S2 S3) as (I1 & I2 & I3 & I4).
    split_and!; [done|done| |].
    + intros Hd. destruct (I3 Hd) as [Hd1|Hin].
      * destruct (S4 Hd1) as [?| ->]; [by left|right; by left].
      * right. by right.
    + intros Hnin Hd HR.
      assert (ev <> EvClose) as Hne by (intros ->; apply Hnin; by left).
      assert (EvClose ∉ evs) as Hnin' by (intros ?; apply Hnin; by right).
      destruct (S5 Hne HR) as ([HR1|?] & Hlen); [|congruence].
      assert (done (ctx (loopIteration ev sys)) = false) as Hd1.
      { destruct (done (ctx (loopIteration ev sys))) eqn:E; [|done].
        destruct (S4 eq_refl); congruence. }
      destruct (I4 Hnin' Hd1 HR1) as (J1 & J2).
      split; [done|]. rewrite J2, Hlen, Hd.
      rewrite filter_cons. destruct (decide (ev = EvTimer)); simpl; lia.
Qed.


End EngineRuns.

Lemma cycleSteps_closed i s (c : context) (w : nat) :
  state.cycleSteps !! i = Some (Some s) ->
  is_Some (state.cycleSteps !! (state.Execute s c w).1).
Proof.
  unfold state.cycleSteps. intros H.
  apply lookup_insert_Some in H as [[_ [= <-]]|[_ H]]; [by eexists|].
  apply lookup_insert_Some in H as [[_ [= <-]]|[_ H]]; [by eexists|].
  by rewrite lookup_empty in H.
Qed.


(** ** The batch validator: construction and verdict *)
Section ValidatorFurther.
Import batchValidatorManagement.
Context {Request : Type}.
Variable json_Marshal : option clients.BatchValue -> result goError (list byte).
Variable json_Unmarshal : list byte -> result goError microserviceResponse.
Variable http_NewRequestWithContext :
  requestContext -> string -> string -> list byte -> result goError Request.
Variables Ethereum Elrond : string.
Variable http_DefaultClient : HTTPClient Request.

Local Abbreviation validate :=
  (ValidateBatch json_Marshal json_Unmarshal http_NewRequestWithContext).
Local Abbreviation isChain c := (c = Ethereum \/ c = Elrond).

(** [ValidateBatch] says that a batch is valid only on the word of the
  microservice: it returns true exactly when the batch was marshalled, the
  request was made with the request time as its deadline and answered, the
  body was read and it decodes to a valid answer. It never returns true
  together with an error, and an error always comes with false. *)
Theorem ValidateBatch_true_only_from_service (bv : batchValidator Request) ctx batch :
  ((validate bv ctx batch).1 = true <->
   exists body req resp bytes,
     json_Marshal batch = Ok body /\
     http_NewRequestWithContext {| parent := ctx; timeout := requestTime bv |}
       MethodPost (requestURL bv) body = Ok req /\
     Do (httpClient bv) req = Ok resp /\
     Body resp = Ok bytes /\
     json_Unmarshal bytes = Ok {| Valid := true |}) /\
  ((validate bv ctx batch).1 = true -> (validate bv ctx batch).2 = None) /\
  (forall e, (validate bv ctx batch).2 = Some e -> (validate bv ctx batch).1 = false).
Proof.
  unfold ValidateBatch, doRequest, doRequestReturningBytes, ioutil_ReadAll.
  destruct (json_Marshal batch) as [body|e]; simpl.
  2: { split_and!; [|done..]. split; [done|]. by intros (? & ? & ? & ? & ? & _). }
  destruct (http_NewRequestWithContext _ MethodPost (requestURL bv) body)
    as [req|e] eqn:Hreq; simpl.
  2: { split_and!; [|done..]. split; [done|].
       intros (? & ? & ? & ? & [= <-] & ? & _). congruence. }
  destruct (Do (httpClient bv) req) as [resp|e] eqn:Hdo; simpl.
  2: { split_and!; [|done..]. split; [done|].
       intros (? & ? & ? & ? & [= <-] & ? & ? & _). congruence. }
  destruct (Body resp) as [bytes|e] eqn:Hbody; simpl.
  2: { split_and!; [|done..]. split; [done|].
       intros (? & ? & ? & ? & [= <-] & ? & ? & ? & _). congruence. }
  destruct (json_Unmarshal bytes) as [[v]|e] eqn:Hdec; simpl.
  2: { split_and!; [|done..]. split; [done|].
       intros (? & ? & ? & ? & [= <-] & ? & ? & ? & ?). congruence. }
  split_and!; [|done..]. split.
  - intros ->. by exists body, req, resp, bytes.
  - intros (? & ? & ? & ? & [= <-] & ? & ? & ? & ?). congruence.
Qed.

(** [NewBatchValidator] makes a validator exactly when the source chain and
  the destination chain are each one of the two known chains and the
  request time is at least a millisecond; nothing requires the two chains
  to differ. The validator made posts to [RequestURL/source/destination]
  and keeps the request time. The source chain is checked first, then the
  destination chain, then the request time. *)
Theorem NewBatchValidator_accepts (args : ArgsBatchValidator) :
  let new := NewBatchValidator Ethereum Elrond http_DefaultClient args in
  ((exists bv, new = Ok bv) <->
   isChain (SourceChain args) /\ isChain (DestinationChain args) /\
   1000000 <= RequestTime args) /\
  (forall bv, new = Ok bv ->
     requestURL bv = RequestURL args +:+ "/" +:+ SourceChain args +:+ "/"
                       +:+ DestinationChain args /\
     requestTime bv = RequestTime args /\ httpClient bv = http_DefaultClient) /\
  (~ isChain (SourceChain args) -> new = Err (ErrInvalidValueChain (SourceChain args))) /\
  (isChain (SourceChain args) -> ~ isChain (DestinationChain args) ->
     new = Err (ErrInvalidValueChain (DestinationChain args))) /\
  (isChain (SourceChain args) -> isChain (DestinationChain args) ->
     RequestTime args < 1000000 -> new = Err ErrInvalidValueRequestTime).
Proof.
  intros new. unfold new, NewBatchValidator, checkArgs, minRequestTime.
  destruct (decide (isChain (SourceChain args))) as [Hs|Hs]; simpl.
  2: { split_and!; try done. split; [by intros [? ?]|]. by intros (? & _). }
  destruct (decide (isChain (DestinationChain args))) as [Hd|Hd]; simpl.
  2: { split_and!; try done. split; [by intros [? ?]|]. by intros (_ & ? & _). }
  destruct (Z.ltb_spec (RequestTime args) 1000000) as [Ht|Ht]; simpl.
  - split_and!; try done. split; [by intros [? ?]|]. intros (_ & _ & ?). lia.
  - split_and!; try done.
    + split; [done|]. intros _. by eexists.
    + by intros bv [= <-].
    + intros _ _ ?. lia.
Qed.

End ValidatorFurther.

(** ** The Ethereum client: the message hash *)
Section ClientMessageHash.
Import ethereum.
Context {Env AbiType : Type}.
Variable abi_NewType : string -> result goError AbiType.
Variable Pack : list (Argument AbiType) -> list (list byte) -> list (list byte) ->
  list Z -> list Z -> Z -> string -> result goError (list byte).
Variable Keccak256Hash : list byte -> list byte.

Local Abbreviation hashOf := (GenerateMessageHash abi_NewType Pack Keccak256Hash).

Lemma extractListFrom_same_fields (c : client Env) ctx ds1 ds2 arg st :
  Forall2 (λ d1 d2, clients.nonce d1 = clients.nonce d2 /\
                    BytesToAddress (clients.toBytes d1) = BytesToAddress (clients.toBytes d2) /\
                    clients.tokenBytes d1 = clients.tokenBytes d2 /\
                    clients.amount d1 = clients.amount d2) ds1 ds2 ->
  extractListFrom c ctx ds1 arg st = extractListFrom c ctx ds2 arg st.
Proof.
  intros H. revert arg st.
  induction H as [|d1 d2 ds1 ds2 (Hn & Ht & Hk & Ha) _ IH]; intros arg st; simpl; [done|].
  unfold bind. rewrite Hk, Ht, Ha, Hn.
  destruct (invoke (CallConvertToken (clients.tokenBytes d2))
              (ConvertToken (tokensMapper c) ctx (clients.tokenBytes d2)) st)
    as [[[erc20|e]|] st']; [|done..].
  destruct (clients.amount d2); [|done]. apply IH.
Qed.



End ClientMessageHash.

